(** * asionet: timed operations, framed streams, messages and the service client

    A shallow embedding of [Closeable.h], [asionet/Stream.h], [Message.h] and
    [ServiceClient.h].

    - Asynchronous code is written in continuation-passing style over a small
      inductive type of actions ([Prog]): a handler is the list of things it
      does, and a lambda that the source passes on is a function into [Prog].
    - The executor, the timers, the transport, the stream buffer and a trace
      of what happened are an explicit [State]; [exec] runs one handler to
      completion on it, and the environment moves it on with [EnvEvent]s:
      time passes, a posted handler runs, an expired timer fires, an
      outstanding operation completes (once, with any outcome), the client is
      stopped.
    - Instants and durations are integers; byte strings are lists of bytes.
    - Headers that are not among the sources ([Error.h], [Frame.h],
      [Utils.h], [Timer.h], [Networking.h], [Socket.h], [Busyable.h]) are
      modelled where a definition needs them, and said so there. *)

From Stdlib Require Import Strings.Byte ZArith Lia.
From stdpp Require Import base list numbers.

Local Open Scope Z_scope.

(** ** Error values *)

(** [boost::system::error_code].  Only its truth value and the comparison with
    [operation_aborted] are used by the sources. *)
Inductive error_code : Type :=
| ec_success
| ec_operation_aborted
| ec_would_block
| ec_eof
| ec_other (v : nat).

#[global] Instance error_code_eq_dec : EqDecision error_code.
Proof. solve_decision. Defined.

(** [if (error)] on a [boost::system::error_code]. *)
Definition ec_failed (e : error_code) : bool :=
  match e with
  | ec_success => false
  | _ => true
  end.

(** [error::codes] of [Error.h] (the header is not among the sources; the
    names are the ones the sources use). *)
Inductive ErrorCode : Type :=
| SUCCESS
| FAILED_OPERATION
| ABORTED
| BUSY
| ENCODING
| DECODING
| INVALID_FRAME.

#[global] Instance ErrorCode_eq_dec : EqDecision ErrorCode.
Proof. solve_decision. Defined.

(** [if (error)] on a library error: everything but [SUCCESS] is an error. *)
Definition is_error (e : ErrorCode) : bool :=
  match e with
  | SUCCESS => false
  | _ => true
  end.

(** ** Frame codec *)

Definition byte_of_N (n : N) : byte :=
  match Byte.of_N (n mod 256)%N with
  | Some b => b
  | None => x00
  end.

(** Modelled from the spec: [utils::toBigEndian<4>] of [Utils.h], which is not
    among the sources ("prepend big-endian 4-byte length"). *)
Definition toBigEndian4 (n : N) : list byte :=
  [ byte_of_N (n / 16777216); byte_of_N (n / 65536);
    byte_of_N (n / 256); byte_of_N n ].

(** Modelled from the spec: [utils::fromBigEndian<4, std::uint32_t>] of
    [Utils.h] ("parse big-endian 4-byte unsigned length"). *)
Definition fromBigEndian4 (bs : list byte) : N :=
  foldl (fun acc b => (acc * 256 + Byte.to_N b)%N) 0%N (take 4 bs).

Module Frame.

Definition HEADER_SIZE : nat := 4.

(** Modelled from the spec: class [Frame] of [Frame.h], which is not among
    the sources: a 4-byte big-endian length of the payload, then the
    payload; the length field is a [std::uint32_t]. *)
Record t : Type := make { data : list byte }.

Definition header (f : t) : list byte :=
  toBigEndian4 (N.of_nat (length (data f)) mod 4294967296)%N.

Definition getBuffers (f : t) : list byte := header f ++ data f.

Definition getSize (f : t) : nat := HEADER_SIZE + length (data f).

End Frame.

(** ** Actions of a handler *)

(** The asynchronous operations handed to the timed wrapper. *)
Inductive IoOp : Type :=
| OpRead (exactly : nat)          (* async_read(stream, buffer, transfer_exactly(n)) *)
| OpWrite (bytes : list byte)     (* async_write(stream, buffers) *)
| OpConnect (host : list byte) (port : nat).   (* async_connect(socket, endpoint) *)

(** What a run leaves in its trace. *)
Inductive Event : Type :=
| Called (e : ErrorCode) (data : list byte)   (* the user handler ran *)
| IoStarted (op : IoOp)
| TimerArmed (timeout : Z)
| Closed
| Threw (e : ErrorCode).                       (* an exception left the operation *)

(** Straight-line handler code.  Every constructor but [Ret] carries the rest of
    the handler; operations that return a value pass it to that rest. *)
Inductive Prog : Type :=
| Ret                                                   (* return; *)
| Log (ev : Event) (k : Prog)
| Now (k : Z -> Prog)                                   (* time::now() *)
| IsOpen (k : bool -> Prog)                             (* closeable.is_open() *)
| Close (k : Prog)                                      (* closeable.close(ignoredError) *)
| NewSocket (k : Prog)                                  (* socket = Socket(context) *)
| NewBuffer (k : Prog)                                  (* a fresh boost::asio::streambuf *)
| CallLater (task : Prog) (k : Prog)                    (* net.callLater(task) *)
| NewTimer (k : nat -> Prog)                            (* Timer::create(context) *)
| StartTimeout (timer : nat) (timeout : Z) (h : Prog) (k : Prog)
| StopTimer (timer : nat) (k : Prog)                    (* timer->stop() *)
| AsyncIo (op : IoOp) (h : error_code -> nat -> Prog) (k : Prog)
| Consume (n : nat) (k : list byte -> Prog)             (* utils::stringFromStreambuf *)
| Lock (k : Prog)                                       (* BusyLock busyLock{*self} *)
| Unlock (k : Prog).                                    (* ~BusyLock() *)

(** Statement sequencing: [q] runs where [p] returns. *)
Fixpoint seqP (p q : Prog) : Prog :=
  match p with
  | Ret => q
  | Log ev k => Log ev (seqP k q)
  | Now k => Now (fun t => seqP (k t) q)
  | IsOpen k => IsOpen (fun b => seqP (k b) q)
  | Close k => Close (seqP k q)
  | NewSocket k => NewSocket (seqP k q)
  | NewBuffer k => NewBuffer (seqP k q)
  | CallLater task k => CallLater task (seqP k q)
  | NewTimer k => NewTimer (fun t => seqP (k t) q)
  | StartTimeout t d h k => StartTimeout t d h (seqP k q)
  | StopTimer t k => StopTimer t (seqP k q)
  | AsyncIo op h k => AsyncIo op h (seqP k q)
  | Consume n k => Consume n (fun d => seqP (k d) q)
  | Lock k => Lock (seqP k q)
  | Unlock k => Unlock (seqP k q)
  end.

(** ** The executor, the timers and the transport *)

Record Timer : Type := mkTimer {
  timer_deadline : Z;
  timer_handler : Prog
}.

Record State : Type := mkState {
  clock : Z;                                             (* time::now() *)
  is_open : bool;                                        (* socket.is_open() *)
  streambuf : list byte;                                 (* input sequence of the buffer *)
  executor : list Prog;                                  (* posted handlers, oldest first *)
  timers : list (option Timer);                          (* by timer id; None: not armed *)
  pending : list (IoOp * (error_code -> nat -> Prog));   (* outstanding I/O, oldest first *)
  trace : list Event;
  busy : bool                                            (* the client's busy flag *)
}.

Definition set_clock (t : Z) (s : State) : State :=
  mkState t (is_open s) (streambuf s) (executor s) (timers s) (pending s) (trace s) (busy s).
Definition set_open (b : bool) (s : State) : State :=
  mkState (clock s) b (streambuf s) (executor s) (timers s) (pending s) (trace s) (busy s).
Definition set_streambuf (b : list byte) (s : State) : State :=
  mkState (clock s) (is_open s) b (executor s) (timers s) (pending s) (trace s) (busy s).
Definition set_executor (q : list Prog) (s : State) : State :=
  mkState (clock s) (is_open s) (streambuf s) q (timers s) (pending s) (trace s) (busy s).
Definition set_timers (ts : list (option Timer)) (s : State) : State :=
  mkState (clock s) (is_open s) (streambuf s) (executor s) ts (pending s) (trace s) (busy s).
Definition set_pending (p : list (IoOp * (error_code -> nat -> Prog))) (s : State) : State :=
  mkState (clock s) (is_open s) (streambuf s) (executor s) (timers s) p (trace s) (busy s).
Definition log (ev : Event) (s : State) : State :=
  mkState (clock s) (is_open s) (streambuf s) (executor s) (timers s) (pending s)
          (trace s ++ [ev]) (busy s).
Definition set_busy (b : bool) (s : State) : State :=
  mkState (clock s) (is_open s) (streambuf s) (executor s) (timers s) (pending s)
          (trace s) b.

(** Modelled from the spec: [Timer] of [Timer.h], which is not among the
    sources ("a deadline timer armed to duration T", cancelled idempotently by
    [stop]): [create] makes a timer that is not armed, [startTimeout] arms it
    to run its handler once the duration has passed, [stop] disarms it. *)
Definition Timer_create (s : State) : nat * State :=
  (length (timers s), set_timers (timers s ++ [None]) s).

Definition Timer_startTimeout (t : nat) (timeout : Z) (h : Prog) (s : State) : State :=
  set_timers (<[t := Some (mkTimer (clock s + timeout) h)]> (timers s)) s.

Definition Timer_stop (t : nat) (s : State) : State :=
  set_timers (<[t := None]> (timers s)) s.

(** Modelled from the spec: [callLater] of [Networking.h], which is not among
    the sources ("scheduling the handler on the executor"): the task is
    posted behind the tasks already posted and runs when the executor gets
    to it. *)
Definition callLater (task : Prog) (s : State) : State :=
  set_executor (executor s ++ [task]) s.

(** Modelled from the spec: [utils::stringFromStreambuf] of [Utils.h], which
    is not among the sources ("consuming bytes as they are read"): the first
    [n] bytes of the buffer, which are taken out of it. *)
Definition stringFromStreambuf (n : nat) (s : State) : list byte * State :=
  (take n (streambuf s), set_streambuf (drop n (streambuf s)) s).

(** Modelled from the spec: [BusyLock] of [Busyable.h], which is not among
    the sources ("Busy flag: per-client boolean; true while a call is in
    flight", "Acquire busy guard; on contention fail with Busy", "taken via a
    scoped guard"): the constructor throws [Busy] when the flag is set
    ([None]) and sets it otherwise; the destructor clears it. *)
Definition BusyLock_acquire (s : State) : option State :=
  if busy s then None else Some (set_busy true s).

Definition BusyLock_release (s : State) : State := set_busy false s.

(** A handler runs to completion: the executor is single threaded and
    cooperative, so nothing interleaves with it.  An exception ends the
    operation that throws it: the rest of its code does not run. *)
Fixpoint exec (p : Prog) (s : State) : State :=
  match p with
  | Ret => s
  | Log ev k => exec k (log ev s)
  | Now k => exec (k (clock s)) s
  | IsOpen k => exec (k (is_open s)) s
  | Close k => exec k (log Closed (set_open false s))
  | NewSocket k => exec k (set_open false s)
  | NewBuffer k => exec k (set_streambuf [] s)
  | CallLater task k => exec k (callLater task s)
  | NewTimer k => exec (k (Timer_create s).1) (Timer_create s).2
  | StartTimeout t d h k => exec k (log (TimerArmed d) (Timer_startTimeout t d h s))
  | StopTimer t k => exec k (Timer_stop t s)
  | AsyncIo op h k => exec k (log (IoStarted op) (set_pending (pending s ++ [(op, h)]) s))
  | Consume n k => exec (k (stringFromStreambuf n s).1) (stringFromStreambuf n s).2
  | Lock k =>
      match BusyLock_acquire s with
      | Some s' => exec k s'
      | None => log (Threw BUSY) s
      end
  | Unlock k => exec k (BusyLock_release s)
  end.

(** What the environment does between two handlers. *)
Inductive EnvEvent : Type :=
| Tick (dt : N)                       (* time passes *)
| RunPosted                           (* the executor runs the oldest posted handler *)
| FireTimer (t : nat)                 (* timer [t] has expired and its handler runs *)
| Complete (i : nat) (ec : error_code) (n : nat) (received : list byte)
                                      (* outstanding operation [i] completes *)
| Stop.                               (* ServiceClient::stop() closes the socket *)

(** Completion of an outstanding operation.  A read appends what it received
    to the buffer and reports its length; a write reports [n]; a successful
    connect leaves the socket open. *)
Definition complete (op : IoOp) (h : error_code -> nat -> Prog)
    (ec : error_code) (n : nat) (received : list byte) (s : State) : State :=
  match op with
  | OpRead _ =>
      exec (h ec (length received)) (set_streambuf (streambuf s ++ received) s)
  | OpWrite _ => exec (h ec n) s
  | OpConnect _ _ =>
      exec (h ec n) (if ec_failed ec then s else set_open true s)
  end.

(** One move of the environment; a move that is not enabled leaves the state
    as it is. *)
Definition step (ev : EnvEvent) (s : State) : State :=
  match ev with
  | Tick dt => set_clock (clock s + Z.of_N dt) s
  | RunPosted =>
      match executor s with
      | [] => s
      | task :: rest => exec task (set_executor rest s)
      end
  | FireTimer t =>
      match timers s !! t with
      | Some (Some tm) =>
          if timer_deadline tm <=? clock s
          then exec (timer_handler tm) (Timer_stop t s)
          else s
      | _ => s
      end
  | Complete i ec n received =>
      match pending s !! i with
      | Some (op, h) => complete op h ec n received (set_pending (delete i (pending s)) s)
      | None => s
      end
  | Stop => log Closed (set_open false s)
  end.

Definition run (evs : list EnvEvent) (s : State) : State :=
  foldl (fun st ev => step ev st) s evs.

(** A client with nothing posted, armed or outstanding on this socket. *)
Definition client (busy : bool) (now : Z) (open : bool) (buffer : list byte) : State :=
  mkState now open buffer [] [] [] [] busy.

(** A client between two operations: it is not busy. *)
Definition idle (now : Z) (open : bool) (buffer : list byte) : State :=
  client false now open buffer.

(** Every posted handler has run and every started operation has completed. *)
Definition quiescent (s : State) : Prop :=
  executor s = [] /\ pending s = [].

Definition is_call (ev : Event) : bool :=
  match ev with
  | Called _ _ => true
  | _ => false
  end.

(** The invocations of the user handler in a trace, in order. *)
Definition calls (tr : list Event) : list Event := filter (fun ev => is_call ev = true) tr.

Definition is_io (ev : Event) : bool :=
  match ev with
  | IoStarted _ => true
  | _ => false
  end.

(** The operations started on the transport, in order. *)
Definition started (tr : list Event) : list Event := filter (fun ev => is_io ev = true) tr.

(** ** Closeable.h *)

(** [WorkSerializer] ([WorkSerializer.h] is not among the sources) wraps the
    timer handler and the completion handler so that they never run
    concurrently.  Handlers of this model run to completion one after the
    other, so the wrapped handler is the handler. *)
Definition serialized {H : Type} (h : H) : H := h.

Module Closer.

(** [class Closer]: a reference to the guarded object (here: its index among
    the closeables) and the [alive] flag. *)
Record t : Type := make {
  closeable : nat;
  alive : bool
}.

#[global] Instance t_eq_dec : EqDecision t.
Proof. solve_decision. Defined.

(** Guards by object identity ([None]: destroyed), the closeables (their
    open flag) and the calls of [close], oldest first. *)
Record Heap : Type := mkHeap {
  guards : list (option t);
  closeables : list bool;
  closed : list nat
}.

(** [static void close(Closeable &)]: [closeable.close(ignoredError)]. *)
Definition close (c : nat) (h : Heap) : Heap :=
  mkHeap (guards h) (<[c := false]> (closeables h)) (closed h ++ [c]).

(** [explicit Closer(Closeable & closeable)]; [alive{true}]. *)
Definition construct (c : nat) (h : Heap) : Heap :=
  mkHeap (guards h ++ [Some (make c true)]) (closeables h) (closed h).

(** [~Closer()]: [if (alive) close(closeable);], then the object is gone. *)
Definition destroy (this : nat) (h : Heap) : Heap :=
  match guards h !! this with
  | Some (Some g) =>
      let h' := if alive g then close (closeable g) h else h in
      mkHeap (<[this := None]> (guards h')) (closeables h') (closed h')
  | _ => h
  end.

(** [Closer(Closer && other) : closeable(other.closeable)
    { other.alive = false; }]; the new guard's [alive] takes its default
    member initializer. *)
Definition move_construct (other : nat) (h : Heap) : Heap :=
  match guards h !! other with
  | Some (Some o) =>
      mkHeap (<[other := Some (make (closeable o) false)]> (guards h)
                ++ [Some (make (closeable o) true)])
             (closeables h) (closed h)
  | _ => h
  end.

(** [Closer & operator=(Closer && other)].  [closeable] is a reference, so
    [closeable = other.closeable] assigns the guarded object, it does not
    rebind the guard; then [alive = other.alive; other.alive = false;], in
    this order also when [this] and [other] are one object. *)
Definition move_assign (this other : nat) (h : Heap) : Heap :=
  match guards h !! this, guards h !! other with
  | Some (Some g), Some (Some o) =>
      let cs := match closeables h !! closeable o with
                | Some v => <[closeable g := v]> (closeables h)
                | None => closeables h
                end in
      let gs1 := <[this := Some (make (closeable g) (alive o))]> (guards h) in
      let gs2 := match gs1 !! other with
                 | Some (Some o') => <[other := Some (make (closeable o') false)]> gs1
                 | _ => gs1
                 end in
      mkHeap gs2 cs (closed h)
  | _, _ => h
  end.

Inductive Op : Type :=
| Construct (c : nat)
| MoveConstruct (other : nat)
| MoveAssign (this other : nat)
| Destroy (this : nat).

Definition apply (op : Op) (h : Heap) : Heap :=
  match op with
  | Construct c => construct c h
  | MoveConstruct other => move_construct other h
  | MoveAssign this other => move_assign this other h
  | Destroy this => destroy this h
  end.

Definition run (ops : list Op) (h : Heap) : Heap :=
  foldl (fun st op => apply op st) h ops.

(** One open closeable and no guard yet. *)
Definition start : Heap := mkHeap [] [true] [].

(** How often [close] was called on closeable [c]. *)
Definition closes (c : nat) (h : Heap) : nat :=
  length (filter (fun x => x = c) (closed h)).

(** The guards that would close [c] when destroyed. *)
Definition owners (c : nat) (gs : list (option t)) : nat :=
  length (filter (fun g => g = Some (make c true)) gs).

(** A move constructor whose source is alive (or is no guard); constructing a
    second guard on a closeable is not part of a chain. *)
Definition live_source (op : Op) (h : Heap) : bool :=
  match op with
  | Construct _ => false
  | MoveConstruct other =>
      match guards h !! other with
      | Some (Some o) => alive o
      | _ => true
      end
  | _ => true
  end.

(** A program of moves and destructions in which no guard is move-constructed
    from a guard that is no longer alive. *)
Fixpoint live_sources (ops : list Op) (h : Heap) : bool :=
  match ops with
  | [] => true
  | op :: ops => live_source op h && live_sources ops (apply op h)
  end.

(** All guards guard closeable 0, and at most one [close] has happened or is
    still to come. *)
Definition one_owner (h : Heap) : Prop :=
  (forall i g, guards h !! i = Some (Some g) -> closeable g = 0%nat) /\
  (owners 0 (guards h) + closes 0 h <= 1)%nat.

(** The destructor as handler code, for a guard held by a continuation. *)
Definition destructor (g : t) : Prog :=
  if alive g then Close Ret else Ret.

End Closer.

(** [struct IsOpen]: [closeable.is_open()]. *)
Definition IsOpen_call (k : bool -> Prog) : Prog := IsOpen k.

Module TimedOperation.

(** The locals of [timedOperation] that its completion lambda captures by
    reference. *)
Record Locals : Type := mkLocals {
  closeableError : error_code;
  result : option (error_code * nat)
}.

(** [closeableError = boost::asio::error::would_block]; [result] is the
    caller's tuple. *)
Definition init : Locals := mkLocals ec_would_block None.

(** The completion lambda: [timer->stop(); result = std::make_tuple(error,
    remainingHandlerArgs...);]. *)
Definition on_completion (error : error_code) (arg : nat) (l : Locals) : Locals :=
  mkLocals (closeableError l) (Some (error, arg)).

Inductive Outcome : Type :=
| Returned
| Thrown (e : ErrorCode).

(** The code after [waiter.await(waitable)]. *)
Definition after_await (l : Locals) (open : bool) : Outcome :=
  if ec_failed (closeableError l) || negb open then
    if decide (closeableError l = ec_operation_aborted)
    then Thrown ABORTED
    else Thrown FAILED_OPERATION
  else Returned.

(** [timedOperation], for an awaited operation that completed with [error]
    and [arg] and a closeable that is [open] when the wait returns.  The
    timer handler can only close the closeable, which [open] accounts for. *)
Definition timedOperation (error : error_code) (arg : nat) (open : bool)
    : Locals * Outcome :=
  let l := on_completion error arg init in
  (l, after_await l open).

End TimedOperation.

(** The completion lambda of [timedAsyncOperation]. *)
Definition timedAsyncOperation_completion (timer : nat)
    (handler : ErrorCode -> error_code -> nat -> Prog)
    (opError : error_code) (remainingHandlerArgs : nat) : Prog :=
  StopTimer timer
    (IsOpen_call (fun open =>
       let errorCode := SUCCESS in
       let errorCode :=
         if negb open then ABORTED
         else if ec_failed opError then FAILED_OPERATION
         else errorCode in
       handler errorCode opError remainingHandlerArgs)).

(** [timedAsyncOperation]: arm the timer whose handler closes the closeable,
    then start the operation with the classifying completion handler. *)
Definition timedAsyncOperation
    (asyncOperation : (error_code -> nat -> Prog) -> Prog)
    (timeout : Z)
    (handler : ErrorCode -> error_code -> nat -> Prog) : Prog :=
  NewTimer (fun timer =>
    StartTimeout timer timeout (serialized (Close Ret))
      (asyncOperation (serialized (timedAsyncOperation_completion timer handler)))).

(** ** asionet/Stream.h *)

(** The [asyncOperation] lambdas: [boost::asio::async_write(stream, buffers,
    handler)] and [boost::asio::async_read(stream, buffer,
    transfer_exactly(n), handler)]. *)
Definition async_write (buffers : list byte) (h : error_code -> nat -> Prog) : Prog :=
  AsyncIo (OpWrite buffers) h Ret.

Definition async_read (exactly : nat) (h : error_code -> nat -> Prog) : Prog :=
  AsyncIo (OpRead exactly) h Ret.

(** [internal::numDataBytesFromBuffer]: take the four header bytes out of the
    buffer and read them as a big-endian [std::uint32_t]. *)
Definition numDataBytesFromBuffer (k : nat -> Prog) : Prog :=
  Consume 4 (fun numDataBytesStr => k (N.to_nat (fromBigEndian4 numDataBytesStr))).

(** The handlers of [Stream.h] take the library error and the byte count; the
    [boost] error that [timedAsyncOperation] passes second is not looked at. *)
Definition asyncWrite_handler (frame : Frame.t) (handler : ErrorCode -> Prog)
    (error : ErrorCode) (opError : error_code) (numBytesTransferred : nat) : Prog :=
  if (numBytesTransferred <? Frame.getSize frame)%nat then handler FAILED_OPERATION
  else handler error.

Definition asyncWrite (writeData : list byte) (timeout : Z)
    (handler : ErrorCode -> Prog) : Prog :=
  let frame := Frame.make writeData in
  let buffers := Frame.getBuffers frame in
  timedAsyncOperation (async_write buffers) timeout (asyncWrite_handler frame handler).

(** The handler of the body read (phase 2). *)
Definition asyncRead_body_handler (handler : ErrorCode -> list byte -> Prog)
    (numDataBytes : nat)
    (error : ErrorCode) (opError : error_code) (numBytesTransferred : nat) : Prog :=
  let data := [] in
  if is_error error then handler error data
  else if negb (numBytesTransferred =? numDataBytes)%nat then handler INVALID_FRAME data
  else Consume numDataBytes (fun data => handler error data).

(** The handler of the header read (phase 1). *)
Definition asyncRead_header_handler (timeout : Z)
    (handler : ErrorCode -> list byte -> Prog) (startTime : Z)
    (error : ErrorCode) (opError : error_code) (numBytesTransferred : nat) : Prog :=
  let data := [] in
  if is_error error then handler error data
  else if negb (numBytesTransferred =? Frame.HEADER_SIZE)%nat then handler INVALID_FRAME data
  else
    numDataBytesFromBuffer (fun numDataBytes =>
      if (numDataBytes =? 0)%nat then handler error data
      else
        Now (fun now =>
          let timeSpend := now - startTime in
          let newTimeout := timeout - timeSpend in
          timedAsyncOperation (async_read numDataBytes) newTimeout
            (asyncRead_body_handler handler numDataBytes))).

Definition asyncRead (timeout : Z) (handler : ErrorCode -> list byte -> Prog) : Prog :=
  Now (fun startTime =>
    timedAsyncOperation (async_read Frame.HEADER_SIZE) timeout
      (asyncRead_header_handler timeout handler startTime)).

(** ** Message.h *)

Section Message.

(** The user's message type with its [Encoder<Message>] and
    [Decoder<Message>]; [None] stands for a functor that threw.  A decoder
    returns a [std::shared_ptr<Message>], which may be null: [Some None].
    (An encoder that returns a null pointer is not modelled: the code
    dereferences what the encoder returns.) *)
Variable Message : Type.
Variable Encoder : Message -> option (list byte).
Variable Decoder : list byte -> option (option Message).

(** [internal::encode]: [Some data] when it returns [true] (and has set
    [data]), [None] when it returns [false]. *)
Definition encode (message : Message) : option (list byte) :=
  match Encoder message with
  | Some data => Some data
  | None => None
  end.

(** [internal::decode], likewise: [Some message] when it returns [true],
    with [message] the pointer the decoder returned. *)
Definition decode (data : list byte) : option (option Message) :=
  match Decoder data with
  | Some message => Some message
  | None => None
  end.

Definition asyncSend (message : Message) (timeout : Z)
    (handler : ErrorCode -> Prog) : Prog :=
  match encode message with
  | None => CallLater (handler ENCODING) Ret
  | Some data => asyncWrite data timeout (fun errorCode => handler errorCode)
  end.

(** The lambda that [asyncReceive] hands to [asyncRead]; [message] is a null
    pointer until the decoder has returned. *)
Definition asyncReceive_handler (handler : ErrorCode -> option Message -> Prog)
    (errorCode : ErrorCode) (data : list byte) : Prog :=
  match decode data with
  | None => handler DECODING None
  | Some message => handler errorCode message
  end.

Definition asyncReceive (timeout : Z)
    (handler : ErrorCode -> option Message -> Prog) : Prog :=
  asyncRead timeout (asyncReceive_handler handler).

(** [socket::asyncSendTo] and [socket::asyncReceiveFrom] of [Socket.h], which
    is not among the sources: any operations with these handler types. *)
Variable Host : Type.
Variable asyncSendTo :
  list byte -> Host -> nat -> Z -> (ErrorCode -> Prog) -> Prog.
Variable asyncReceiveFrom :
  Z -> (ErrorCode -> list byte -> Host -> nat -> Prog) -> Prog.

Definition asyncSendDatagram (message : Message) (host : Host) (port : nat)
    (timeout : Z) (handler : ErrorCode -> Prog) : Prog :=
  match encode message with
  | None => CallLater (handler ENCODING) Ret
  | Some data => asyncSendTo data host port timeout (fun error => handler error)
  end.

Definition asyncReceiveDatagram_handler
    (handler : ErrorCode -> option Message -> Host -> nat -> Prog)
    (error : ErrorCode) (data : list byte) (senderHost : Host) (senderPort : nat)
    : Prog :=
  match decode data with
  | None => handler DECODING None senderHost senderPort
  | Some message => handler error message senderHost senderPort
  end.

Definition asyncReceiveDatagram (timeout : Z)
    (handler : ErrorCode -> option Message -> Host -> nat -> Prog) : Prog :=
  asyncReceiveFrom timeout (asyncReceiveDatagram_handler handler).

End Message.

(** [Encoder<std::string>] and [Decoder<std::string>]: a copy of the string. *)
Definition Encoder_string (message : list byte) : option (list byte) := Some message.
Definition Decoder_string (data : list byte) : option (option (list byte)) :=
  Some (Some data).

(** ** ServiceClient.h *)

(** A [BusyLock] that was constructed: it holds the busy flag of the client. *)
Inductive BusyLock : Type := BusyLock_held.

(** [~BusyLock()]. *)
Definition BusyLock_destructor (lock : BusyLock) : Prog := Unlock Ret.

Section ServiceClient.

Variable RequestMessage ResponseMessage : Type.
Variable RequestEncoder : RequestMessage -> option (list byte).
Variable ResponseDecoder : list byte -> option (option ResponseMessage).

Definition CallHandler : Type := ErrorCode -> option ResponseMessage -> Prog.

(** [struct AsyncState].  [self] is the client this model is about and
    [buffer] is the buffer of the [State]. *)
Record AsyncState : Type := mkAsyncState {
  busyLock : BusyLock;
  handler : CallHandler;
  timeout : Z;
  startTime : Z;
  closer : Closer.t
}.

(** [AsyncState(self, handler, timeout, startTime)]: the members are
    initialised in the order of their declaration, [busyLock] (on [*self]) first,
    which throws on a busy client, then the buffer and the closer. *)
Definition AsyncState_new (handler : CallHandler) (timeout startTime : Z)
    (k : AsyncState -> Prog) : Prog :=
  Lock
    (NewBuffer
       (k (mkAsyncState BusyLock_held handler timeout startTime (Closer.make 0 true)))).

(** [~AsyncState()], run when the last continuation that holds [state] is
    gone: the members go in reverse order, so [closer] closes the socket and
    then [busyLock] clears the busy flag. *)
Definition release (state : AsyncState) : Prog :=
  seqP (Closer.destructor (closer state)) (BusyLock_destructor (busyLock state)).

(** [updateTimeout(timeout, startTime)] assigns both; the new values go to
    the rest of the handler. *)
Definition updateTimeout (timeout startTime : Z) (k : Z -> Z -> Prog) : Prog :=
  Now (fun nowTime =>
    let timeSpend := nowTime - startTime in
    k (timeout - timeSpend) nowTime).

Definition newSocket (k : Prog) : Prog :=
  IsOpen (fun open => if negb open then NewSocket k else k).

(** Modelled from the spec: [socket::asyncConnect] of [Socket.h], which is
    not among the sources ("chains connect, send, receive, each as a timed
    async operation"): one timed connect whose outcome goes to the handler. *)
Definition asyncConnect (host : list byte) (port : nat) (timeout : Z)
    (handler : ErrorCode -> Prog) : Prog :=
  timedAsyncOperation (fun h => AsyncIo (OpConnect host port) h Ret) timeout
    (fun error _ _ => handler error).

(** The continuation of the send. *)
Definition asyncCall_sent (state : AsyncState) (error : ErrorCode) : Prog :=
  if is_error error then
    let noResponse := None in
    seqP (handler state error noResponse) (release state)
  else
    updateTimeout (timeout state) (startTime state) (fun timeout' startTime' =>
      let state := mkAsyncState (busyLock state) (handler state) timeout' startTime'
                     (closer state) in
      asyncReceive ResponseMessage ResponseDecoder (timeout state)
        (fun error response =>
           seqP (handler state error response) (release state))).

(** The continuation of the connect. *)
Definition asyncCall_connected (state : AsyncState) (request : RequestMessage)
    (error : ErrorCode) : Prog :=
  if is_error error then
    let noResponse := None in
    seqP (handler state error noResponse) (release state)
  else
    updateTimeout (timeout state) (startTime state) (fun timeout' startTime' =>
      let state := mkAsyncState (busyLock state) (handler state) timeout' startTime'
                     (closer state) in
      asyncSend RequestMessage RequestEncoder request (timeout state)
        (asyncCall_sent state)).

Definition asyncCallOperation (handler : CallHandler) (request : RequestMessage)
    (host : list byte) (port : nat) (timeout : Z) : Prog :=
  Now (fun now =>
    AsyncState_new handler timeout now (fun state =>
      newSocket
        (asyncConnect host port (ServiceClient.timeout state)
           (asyncCall_connected state request)))).

End ServiceClient.

(** ** Handlers that record their call *)

Definition record_code (e : ErrorCode) : Prog := Log (Called e []) Ret.

Definition record_data (e : ErrorCode) (data : list byte) : Prog := Log (Called e data) Ret.

Definition record_message {Message : Type} (repr : Message -> list byte)
    (e : ErrorCode) (m : option Message) : Prog :=
  Log (Called e (from_option repr [] m)) Ret.

(** ** Accounting for handler calls *)

(** [Lin c w p]: on every path through [p], and through every handler that
    [p] posts or registers, the user handler is called exactly [c] times in
    total, and at most [w] handlers are posted or registered.  Timer handlers
    may never run, so they must not call the user handler. *)
Inductive Lin : nat -> nat -> Prog -> Prop :=
| Lin_Ret : Lin 0 0 Ret
| Lin_Log ev k c w :
    Lin c w k -> Lin ((if is_call ev then 1 else 0) + c) w (Log ev k)
| Lin_Now k c w : (forall t, Lin c w (k t)) -> Lin c w (Now k)
| Lin_IsOpen k c w : (forall b, Lin c w (k b)) -> Lin c w (IsOpen k)
| Lin_Close k c w : Lin c w k -> Lin c w (Close k)
| Lin_NewSocket k c w : Lin c w k -> Lin c w (NewSocket k)
| Lin_NewBuffer k c w : Lin c w k -> Lin c w (NewBuffer k)
| Lin_CallLater task k c1 w1 c2 w2 :
    Lin c1 w1 task -> Lin c2 w2 k ->
    Lin (c1 + c2) (S (w1 + w2)) (CallLater task k)
| Lin_NewTimer k c w : (forall t, Lin c w (k t)) -> Lin c w (NewTimer k)
| Lin_StartTimeout t d h k c w :
    Lin 0 0 h -> Lin c w k -> Lin c w (StartTimeout t d h k)
| Lin_StopTimer t k c w : Lin c w k -> Lin c w (StopTimer t k)
| Lin_AsyncIo op h k c1 w1 c2 w2 :
    (forall ec n, Lin c1 w1 (h ec n)) -> Lin c2 w2 k ->
    Lin (c1 + c2) (S (w1 + w2)) (AsyncIo op h k)
| Lin_Consume n k c w : (forall d, Lin c w (k d)) -> Lin c w (Consume n k)
| Lin_weaken p c w w' : Lin c w p -> (w <= w')%nat -> Lin c w' p
| Lin_Unlock k c w : Lin c w k -> Lin c w (Unlock k).

(** What the posted handlers still owe. *)
Inductive Owed_tasks : nat -> nat -> list Prog -> Prop :=
| Owed_tasks_nil : Owed_tasks 0 0 []
| Owed_tasks_cons p ps c w c' w' :
    Lin c w p -> Owed_tasks c' w' ps ->
    Owed_tasks (c + c') (S (w + w')) (p :: ps).

(** What the outstanding operations still owe. *)
Inductive Owed_io : nat -> nat -> list (IoOp * (error_code -> nat -> Prog)) -> Prop :=
| Owed_io_nil : Owed_io 0 0 []
| Owed_io_cons op h ps c w c' w' :
    (forall ec n, Lin c w (h ec n)) -> Owed_io c' w' ps ->
    Owed_io (c + c') (S (w + w')) ((op, h) :: ps).

Definition timers_quiet (ts : list (option Timer)) : Prop :=
  forall t tm, ts !! t = Some (Some tm) -> Lin 0 0 (timer_handler tm).

(** [Owes C W s]: the calls made so far and the calls owed add up to [C], and
    at most [W] handlers are still to run. *)
Definition Owes (C W : nat) (s : State) : Prop :=
  exists c1 w1 c2 w2,
    Owed_tasks c1 w1 (executor s) /\
    Owed_io c2 w2 (pending s) /\
    timers_quiet (timers s) /\
    (length (calls (trace s)) + c1 + c2 = C)%nat /\
    (w1 + w2 <= W)%nat.

(** A fair continuation: in every round the executor runs its oldest posted
    handler and the oldest outstanding operation completes, with the given
    outcome. *)
Definition drain (outcomes : list (error_code * nat * list byte)) : list EnvEvent :=
  flat_map (fun o => [RunPosted; Complete 0 (o.1.1) (o.1.2) (o.2)]) outcomes.

(** The user handler of [p], started in state [s0], is invoked exactly once:
    never twice whatever the environment does, once when nothing is left to
    run, and nothing is left to run after [W] fair rounds. *)
Definition exactly_once_from (W : nat) (p : Prog) (s0 : State) : Prop :=
  forall evs,
    let s := run evs (exec p s0) in
    (length (calls (trace s)) <= 1)%nat /\
    (quiescent s -> length (calls (trace s)) = 1%nat) /\
    (forall outcomes, (W <= length outcomes)%nat ->
       quiescent (run (drain outcomes) s) /\
       length (calls (trace (run (drain outcomes) s))) = 1%nat).

(** The same on every client, busy or not. *)
Definition exactly_once_within (W : nat) (p : Prog) : Prop :=
  forall busy now open buffer, exactly_once_from W p (client busy now open buffer).

(** ** Sample data *)

(** The payload ["ping"]. *)
Definition ping : list byte := [x70; x69; x6e; x67].

(** The host name ["localhost"]. *)
Definition localhost : list byte := [x6c; x6f; x63; x61; x6c; x68; x6f; x73; x74].

(** A user decoder that throws on the empty string and copies any other. *)
Definition Decoder_nonempty (data : list byte) : option (option (list byte)) :=
  match data with
  | [] => None
  | _ => Some (Some data)
  end.

(** The deadline of the first timed operation expires after [timeout]: the
    timer handler closes the transport and the cancelled operation completes
    with [operation_aborted] and no byte transferred. *)
Definition deadline_expiry (timeout : N) : list EnvEvent :=
  [Tick timeout; FireTimer 0; Complete 0 ec_operation_aborted 0 []].

(** ** What a handler may be called with *)

(** The codes [timedAsyncOperation] hands to its handler. *)
Definition classified (e : ErrorCode) : Prop :=
  e = SUCCESS \/ e = ABORTED \/ e = FAILED_OPERATION.

(** [asyncRead]: data only with [SUCCESS]. *)
Definition read_outcome (e : ErrorCode) (data : list byte) : Prop :=
  e = SUCCESS \/ (data = [] /\ (e = ABORTED \/ e = FAILED_OPERATION \/ e = INVALID_FRAME)).

Definition send_outcome (e : ErrorCode) : Prop := classified e \/ e = ENCODING.

(** [asyncReceive]: [DECODING] with a null pointer, or the code of the read
    with a pointer that the decoder returned (null if the decoder returned a
    null pointer). *)
Definition receive_outcome {Message : Type} (Decoder : list byte -> option (option Message))
    (e : ErrorCode) (m : option Message) : Prop :=
  (e = DECODING /\ m = None) \/
  ((classified e \/ e = INVALID_FRAME) /\ exists data, Decoder data = Some m).

(** [asyncCallOperation]: an error of the chain with a null pointer, or the
    outcome of the receive. *)
Definition call_outcome {Response : Type} (Decoder : list byte -> option (option Response))
    (e : ErrorCode) (r : option Response) : Prop :=
  (r = None /\ (e = ABORTED \/ e = FAILED_OPERATION \/ e = ENCODING \/ e = DECODING)) \/
  ((classified e \/ e = INVALID_FRAME) /\ exists data, Decoder data = Some r).

(** Whether a message pointer is set. *)
Definition presence {Message : Type} (m : option Message) : list byte :=
  match m with
  | Some _ => [x01]
  | None => []
  end.

(** A message handler that records the code and whether it got a message. *)
Definition record_presence {Message : Type} (e : ErrorCode) (m : option Message) : Prog :=
  Log (Called e (presence m)) Ret.

(** ** The discipline of the asynchronous operations *)

(** What an operation is held to: what its user handler may be called with,
    when its timers may expire, and whether it has to leave the socket closed. *)
Record Policy : Type := mkPolicy {
  pol_call : ErrorCode -> list byte -> Prop;
  pol_deadline : Z -> Prop;
  pol_close : bool
}.

Definition okLog (P : Policy) (ev : Event) : Prop :=
  match ev with
  | Called e data => pol_call P e data
  | _ => True
  end.

(** A timer handler: it closes and does nothing else. *)
Inductive Quiet : Prog -> Prop :=
| Quiet_Ret : Quiet Ret
| Quiet_Close k : Quiet k -> Quiet (Close k).

(** A user handler that only records admissible calls. *)
Inductive Logs (P : Policy) : Prog -> Prop :=
| Logs_Ret : Logs P Ret
| Logs_Log ev k : okLog P ev -> Logs P k -> Logs P (Log ev k).

(** [Safe P c o ts p]: handler code [p], run at time [c] with the timers [ts]
    still armed on its behalf (and the socket known to be closed when [o]),
    keeps to the policy: it records admissible calls only, arms timers with
    admissible deadlines and closing handlers only, stops every timer of [ts]
    before it returns, posts or starts at most one thing, and that as the
    last thing it does; when the policy asks for it, it returns with the
    socket closed. *)
Inductive Safe (P : Policy) : Z -> bool -> list nat -> Prog -> Prop :=
| Safe_Ret c o : (pol_close P = true -> o = true) -> Safe P c o [] Ret
| Safe_Log c o ts ev k : okLog P ev -> Safe P c o ts k -> Safe P c o ts (Log ev k)
| Safe_Now c o ts k : Safe P c o ts (k c) -> Safe P c o ts (Now k)
| Safe_IsOpen c o ts k : (forall b, Safe P c o ts (k b)) -> Safe P c o ts (IsOpen k)
| Safe_Close c o ts k : Safe P c true ts k -> Safe P c o ts (Close k)
| Safe_NewSocket c o ts k : Safe P c true ts k -> Safe P c o ts (NewSocket k)
| Safe_NewBuffer c o ts k : Safe P c o ts k -> Safe P c o ts (NewBuffer k)
| Safe_CallLater c o ts task :
    (forall c', Safe P c' false ts task) -> Safe P c o ts (CallLater task Ret)
| Safe_NewTimer c o ts k : (forall t, Safe P c o ts (k t)) -> Safe P c o ts (NewTimer k)
| Safe_StartTimeout c o ts t d h k :
    pol_deadline P (c + d) -> Quiet h ->
    Safe P c o (t :: ts) k -> Safe P c o ts (StartTimeout t d h k)
| Safe_StopTimer c o ts ts' t k :
    (forall t', t' ∈ ts -> t' <> t -> t' ∈ ts') ->
    Safe P c o ts' k -> Safe P c o ts (StopTimer t k)
| Safe_AsyncIo c o ts op h :
    (forall c' ec n, Safe P c' false ts (h ec n)) ->
    Safe P c o ts (AsyncIo op h Ret)
| Safe_Consume c o ts n k :
    (forall d, Safe P c o ts (k d)) -> Safe P c o ts (Consume n k)
| Safe_Unlock c o ts k : Safe P c o ts k -> Safe P c o ts (Unlock k).

(** The armed timers are among [ts]. *)
Definition armed_within (ts : list nat) (s : State) : Prop :=
  forall t tm, timers s !! t = Some (Some tm) -> t ∈ ts.

Definition timers_kept (P : Policy) (s : State) : Prop :=
  forall t tm, timers s !! t = Some (Some tm) ->
    pol_deadline P (timer_deadline tm) /\ Quiet (timer_handler tm).

(** The state of an operation that keeps to the policy: nothing is left to
    run and no timer is armed, or one task is posted, or one operation is
    outstanding, whose handler stops the timers that are armed. *)
Definition Kept (P : Policy) (s : State) : Prop :=
  Forall (okLog P) (trace s) /\ timers_kept P s /\
  ((executor s = [] /\ pending s = [] /\ armed_within [] s /\
    (pol_close P = true -> is_open s = false)) \/
   (exists task ts, executor s = [task] /\ pending s = [] /\
      (forall c, Safe P c false ts task) /\ armed_within ts s) \/
   (exists op h ts, executor s = [] /\ pending s = [(op, h)] /\
      (forall c ec n, Safe P c false ts (h ec n)) /\ armed_within ts s)).

(** ** A completed operation *)

(** The socket after a completed operation, the byte count its handler gets
    and the buffer it finds: what [complete] does for each kind of operation. *)
Definition open_after (op : IoOp) (ec : error_code) (open : bool) : bool :=
  match op with
  | OpConnect _ _ => if ec_failed ec then open else true
  | _ => open
  end.

Definition count_after (op : IoOp) (n : nat) (received : list byte) : nat :=
  match op with
  | OpRead _ => length received
  | _ => n
  end.

Definition buffer_after (op : IoOp) (buffer received : list byte) : list byte :=
  match op with
  | OpRead _ => buffer ++ received
  | _ => buffer
  end.

(** ** Chains of guards handed on by move construction *)

(** A move construction from a live guard (or from no guard), or a
    destruction. *)
Definition Closer_handed_on (op : Closer.Op) (h : Closer.Heap) : bool :=
  match op with
  | Closer.MoveConstruct other =>
      match Closer.guards h !! other with
      | Some (Some o) => Closer.alive o
      | _ => true
      end
  | Closer.Destroy _ => true
  | _ => false
  end.

Fixpoint Closer_handed_on_chain (ops : list Closer.Op) (h : Closer.Heap) : bool :=
  match ops with
  | [] => true
  | op :: ops => Closer_handed_on op h && Closer_handed_on_chain ops (Closer.apply op h)
  end.

(** All guards guard closeable 0, and exactly one [close] has happened or is
    still to come. *)
Definition Closer_sole_owner (h : Closer.Heap) : Prop :=
  (forall i g, Closer.guards h !! i = Some (Some g) -> Closer.closeable g = 0%nat) /\
  (Closer.owners 0 (Closer.guards h) + Closer.closes 0 h = 1)%nat.

(** ** More sample data *)

(** The frame header of a two byte payload and such a payload. *)
Definition header_of_two : list byte := [x00; x00; x00; x02].

Definition ok : list byte := [x6f; x6b].

(** * Properties *)

(** ** The accounting is sound *)

Lemma calls_app tr ev :
  length (calls (tr ++ [ev])) = (length (calls tr) + (if is_call ev then 1 else 0))%nat.
Proof.
  unfold calls. rewrite list.filter_app, length_app. f_equal.
  destruct ev; reflexivity.
Qed.

Lemma Owed_tasks_cons_eq p ps c w c' w' C W :
  Lin c w p -> Owed_tasks c' w' ps ->
  C = (c + c')%nat -> W = S (w + w') -> Owed_tasks C W (p :: ps).
Proof. intros ? ? -> ->. constructor; assumption. Qed.

Lemma Owed_io_cons_eq op h ps c w c' w' C W :
  (forall ec n, Lin c w (h ec n)) -> Owed_io c' w' ps ->
  C = (c + c')%nat -> W = S (w + w') -> Owed_io C W ((op, h) :: ps).
Proof. intros ? ? -> ->. constructor; assumption. Qed.

Lemma Owed_tasks_snoc c w ps c' w' p :
  Owed_tasks c w ps -> Lin c' w' p ->
  Owed_tasks (c + c') (S (w + w')) (ps ++ [p]).
Proof.
  induction 1 as [|q qs c1 w1 c2 w2 Hq Hqs IH]; intros Hp; simpl.
  - eapply Owed_tasks_cons_eq; [eassumption|constructor|lia|lia].
  - eapply Owed_tasks_cons_eq; [eassumption|apply IH; assumption|lia|lia].
Qed.

Lemma Owed_io_snoc c w ps c' w' op h :
  Owed_io c w ps -> (forall ec n, Lin c' w' (h ec n)) ->
  Owed_io (c + c') (S (w + w')) (ps ++ [(op, h)]).
Proof.
  induction 1 as [|op1 h1 qs c1 w1 c2 w2 Hq Hqs IH]; intros Hp; simpl.
  - eapply Owed_io_cons_eq; [eassumption|constructor|lia|lia].
  - eapply Owed_io_cons_eq; [eassumption|apply IH; assumption|lia|lia].
Qed.

Lemma Owed_io_delete c w ps i op h :
  Owed_io c w ps -> ps !! i = Some (op, h) ->
  exists c1 w1 c2 w2,
    (forall ec n, Lin c1 w1 (h ec n)) /\ Owed_io c2 w2 (delete i ps) /\
    c = (c1 + c2)%nat /\ w = S (w1 + w2).
Proof.
  intros H. revert i. induction H as [|op1 h1 qs c1 w1 c2 w2 Hq Hqs IH]; intros i Hi.
  - destruct i; discriminate.
  - destruct i as [|i]; simpl in *.
    + inversion Hi; subst. exists c1, w1, c2, w2. auto.
    + destruct (IH _ Hi) as (a & b & a' & b' & Hh & Hrest & -> & ->).
      exists a, b, (c1 + a')%nat, (S (w1 + b')). repeat split; try lia; auto.
      constructor; auto.
Qed.

Lemma timers_quiet_insert ts t o :
  timers_quiet ts ->
  (forall tm, o = Some tm -> Lin 0 0 (timer_handler tm)) ->
  timers_quiet (<[t := o]> ts).
Proof.
  intros Hts Ho t' tm Hl.
  destruct (decide (t = t')) as [->|Hne].
  - destruct (decide (t' < length ts)%nat).
    + rewrite list_lookup_insert_eq in Hl by assumption. inversion Hl; subst. auto.
    + rewrite list_insert_ge in Hl by lia. eauto.
  - rewrite list_lookup_insert_ne in Hl by assumption. eauto.
Qed.

Lemma timers_quiet_snoc ts :
  timers_quiet ts -> timers_quiet (ts ++ [None]).
Proof.
  intros Hts t tm Hl.
  destruct (decide (t < length ts)%nat).
  - rewrite lookup_app_l in Hl by assumption. eauto.
  - rewrite lookup_app_r in Hl by lia.
    destruct (t - length ts)%nat; simpl in Hl; discriminate.
Qed.

(** Running a handler adds what it owes to what the state owes. *)
Lemma exec_Owes p c w :
  Lin c w p -> forall s C W, Owes C W s -> Owes (C + c) (W + w) (exec p s).
Proof.
  induction 1 as
    [ | ev k c w _ IH | k c w _ IH | k c w _ IH | k c w _ IH | k c w _ IH
    | k c w _ IH | task k c1 w1 c2 w2 Ht _ _ IH | k c w _ IH
    | t d h k c w Hh _ _ IH | t k c w _ IH
    | op h k c1 w1 c2 w2 Hh _ _ IH | n k c w _ IH | p c w w' _ IH Hle
    | k c w _ IH ];
    intros s C W HO; simpl.
  - replace (C + 0)%nat with C by lia. replace (W + 0)%nat with W by lia. assumption.
  - replace (C + ((if is_call ev then 1 else 0) + c))%nat
      with ((C + (if is_call ev then 1 else 0)) + c)%nat by lia.
    apply IH. destruct HO as (a & b & a' & b' & H1 & H2 & H3 & H4 & H5).
    exists a, b, a', b'. simpl. rewrite calls_app. repeat split; auto; lia.
  - apply IH; assumption.
  - apply IH; assumption.
  - apply IH. destruct HO as (a & b & a' & b' & H1 & H2 & H3 & H4 & H5).
    exists a, b, a', b'. simpl. rewrite calls_app. simpl. repeat split; auto; lia.
  - apply IH. assumption.
  - apply IH. assumption.
  - replace (C + (c1 + c2))%nat with ((C + c1) + c2)%nat by lia.
    replace (W + S (w1 + w2))%nat with ((W + S w1) + w2)%nat by lia.
    apply IH. destruct HO as (a & b & a' & b' & H1 & H2 & H3 & H4 & H5).
    exists (a + c1)%nat, (S (b + w1)), a', b'. simpl.
    repeat split; auto using Owed_tasks_snoc; lia.
  - apply IH. destruct HO as (a & b & a' & b' & H1 & H2 & H3 & H4 & H5).
    exists a, b, a', b'. simpl. repeat split; auto using timers_quiet_snoc.
  - apply IH. destruct HO as (a & b & a' & b' & H1 & H2 & H3 & H4 & H5).
    exists a, b, a', b'. simpl. rewrite calls_app. simpl.
    repeat split; auto; try lia.
    apply timers_quiet_insert; auto. intros tm [= <-]. assumption.
  - apply IH. destruct HO as (a & b & a' & b' & H1 & H2 & H3 & H4 & H5).
    exists a, b, a', b'. simpl. repeat split; auto.
    apply timers_quiet_insert; auto. discriminate.
  - replace (C + (c1 + c2))%nat with ((C + c1) + c2)%nat by lia.
    replace (W + S (w1 + w2))%nat with ((W + S w1) + w2)%nat by lia.
    apply IH. destruct HO as (a & b & a' & b' & H1 & H2 & H3 & H4 & H5).
    exists a, b, (a' + c1)%nat, (S (b' + w1)). simpl. rewrite calls_app. simpl.
    repeat split; auto using Owed_io_snoc; lia.
  - apply IH. assumption.
  - destruct (IH s C W HO) as (a & b & a' & b' & H1 & H2 & H3 & H4 & H5).
    exists a, b, a', b'. repeat split; auto; lia.
  - apply IH. assumption.
Qed.

Lemma Owes_mono C W W' s : Owes C W s -> (W <= W')%nat -> Owes C W' s.
Proof.
  intros (a & b & a' & b' & H1 & H2 & H3 & H4 & H5) Hle.
  exists a, b, a', b'. repeat split; auto; lia.
Qed.

Lemma Owes_calls_le C W s : Owes C W s -> (length (calls (trace s)) <= C)%nat.
Proof. intros (a & b & a' & b' & _ & _ & _ & H4 & _). lia. Qed.

Lemma Owed_tasks_nil_inv c w : Owed_tasks c w [] -> c = 0%nat /\ w = 0%nat.
Proof. inversion 1. split; reflexivity. Qed.

Lemma Owed_io_nil_inv c w : Owed_io c w [] -> c = 0%nat /\ w = 0%nat.
Proof. inversion 1. split; reflexivity. Qed.

Lemma Owed_tasks_cons_inv c w p ps :
  Owed_tasks c w (p :: ps) ->
  exists c1 w1 c2 w2,
    Lin c1 w1 p /\ Owed_tasks c2 w2 ps /\ c = (c1 + c2)%nat /\ w = S (w1 + w2).
Proof. inversion 1; subst. eauto 10. Qed.

Lemma Owes_quiescent C W s :
  Owes C W s -> quiescent s -> length (calls (trace s)) = C /\ Owes C 0 s.
Proof.
  intros (a & b & a' & b' & H1 & H2 & H3 & H4 & H5) [He Hp].
  rewrite He in H1. rewrite Hp in H2.
  apply Owed_tasks_nil_inv in H1 as [-> ->]. apply Owed_io_nil_inv in H2 as [-> ->].
  split; [lia|]. exists 0%nat, 0%nat, 0%nat, 0%nat.
  rewrite He, Hp. repeat split; auto; try constructor; lia.
Qed.

Lemma Owes_zero_quiescent C s : Owes C 0 s -> quiescent s.
Proof.
  intros (a & b & a' & b' & H1 & H2 & _ & _ & H5).
  split.
  - inversion H1; subst; [reflexivity|lia].
  - inversion H2; subst; [reflexivity|lia].
Qed.

Lemma client_Owes busy now open buffer : Owes 0 0 (client busy now open buffer).
Proof.
  exists 0%nat, 0%nat, 0%nat, 0%nat. simpl.
  repeat split; try constructor. intros t tm Hl. destruct t; discriminate.
Qed.

Lemma idle_Owes now open buffer : Owes 0 0 (idle now open buffer).
Proof. apply client_Owes. Qed.

(** Running the oldest posted handler uses up one unit of pending work. *)
Lemma RunPosted_Owes C W s :
  Owes C W s -> executor s <> [] ->
  exists W', W = S W' /\ Owes C W' (step RunPosted s).
Proof.
  intros (a & b & a' & b' & H1 & H2 & H3 & H4 & H5) Hne. simpl.
  destruct (executor s) as [|task rest] eqn:He; [congruence|].
  apply Owed_tasks_cons_inv in H1 as (c & w & c' & w' & Ht & Hrest & -> & ->).
  destruct W as [|W']; [lia|]. exists W'. split; [reflexivity|].
  assert (HO : Owes (length (calls (trace s)) + c' + a') (w' + b') (set_executor rest s)).
  { exists c', w', a', b'. simpl. repeat split; auto. }
  apply (exec_Owes _ _ _ Ht) in HO.
  replace C with (length (calls (trace s)) + c' + a' + c)%nat by lia.
  eapply Owes_mono; [exact HO|lia].
Qed.

(** So does the completion of an outstanding operation. *)
Lemma Complete_Owes C W s i ec n received :
  Owes C W s -> is_Some (pending s !! i) ->
  exists W', W = S W' /\ Owes C W' (step (Complete i ec n received) s).
Proof.
  intros (a & b & a' & b' & H1 & H2 & H3 & H4 & H5) [[op h] Hi]. simpl. rewrite Hi.
  destruct (Owed_io_delete _ _ _ _ _ _ H2 Hi) as (c1 & w1 & c2 & w2 & Hh & Hrest & -> & ->).
  destruct W as [|W']; [lia|]. exists W'. split; [reflexivity|].
  set (s1 := set_pending (delete i (pending s)) s).
  assert (HO : forall s2, executor s2 = executor s -> pending s2 = pending s1 ->
            timers s2 = timers s -> trace s2 = trace s -> forall m,
            Owes C W' (exec (h ec m) s2)).
  { intros s2 E1 E2 E3 E4 m.
    assert (HO : Owes (length (calls (trace s)) + a + c2) (b + w2) s2).
    { exists a, b, c2, w2. rewrite E1, E2, E3, E4. repeat split; auto. }
    apply (exec_Owes _ _ _ (Hh ec m)) in HO.
    replace C with (length (calls (trace s)) + a + c2 + c1)%nat by lia.
    eapply Owes_mono; [exact HO|lia]. }
  unfold complete. destruct op; [apply HO; reflexivity| apply HO; reflexivity|].
  destruct (ec_failed ec); apply HO; reflexivity.
Qed.

(** No move of the environment changes what is owed in total. *)
Lemma step_Owes C W ev s : Owes C W s -> Owes C W (step ev s).
Proof.
  intros HO. destruct ev as [dt| |t|i ec n received|].
  - destruct HO as (a & b & a' & b' & H1 & H2 & H3 & H4 & H5).
    exists a, b, a', b'. simpl. repeat split; auto.
  - destruct (executor s) as [|task rest] eqn:He.
    + simpl. rewrite He. assumption.
    + destruct (RunPosted_Owes C W s HO) as (W' & -> & H); [congruence|].
      eapply Owes_mono; [exact H|lia].
  - simpl. destruct (timers s !! t) as [[tm|]|] eqn:Ht; try assumption.
    destruct (timer_deadline tm <=? clock s); try assumption.
    destruct HO as (a & b & a' & b' & H1 & H2 & H3 & H4 & H5).
    assert (HO : Owes C W (set_timers (<[t := None]> (timers s)) s)).
    { exists a, b, a', b'. simpl. repeat split; auto.
      apply timers_quiet_insert; auto. discriminate. }
    apply (exec_Owes _ _ _ (H3 _ _ Ht)) in HO.
    replace (C + 0)%nat with C in HO by lia. replace (W + 0)%nat with W in HO by lia.
    assumption.
  - destruct (pending s !! i) as [x|] eqn:Hi.
    + destruct (Complete_Owes C W s i ec n received HO) as (W' & -> & H).
      { rewrite Hi. eauto. }
      eapply Owes_mono; [exact H|lia].
    + simpl. rewrite Hi. assumption.
  - destruct HO as (a & b & a' & b' & H1 & H2 & H3 & H4 & H5).
    exists a, b, a', b'. simpl. rewrite calls_app. simpl. repeat split; auto; lia.
Qed.

Lemma run_app evs1 evs2 s : run (evs1 ++ evs2) s = run evs2 (run evs1 s).
Proof. unfold run. apply foldl_app. Qed.

Lemma run_Owes C W evs s : Owes C W s -> Owes C W (run evs s).
Proof.
  revert s. induction evs as [|ev evs IH]; intros s HO; simpl; [assumption|].
  apply IH, step_Owes, HO.
Qed.

(** A fair round uses up one unit of pending work, if there is any. *)
Lemma round_Owes C W s ec n received :
  Owes C (S W) s -> Owes C W (run [RunPosted; Complete 0 ec n received] s).
Proof.
  intros HO. change (Owes C W (step (Complete 0 ec n received) (step RunPosted s))).
  destruct (executor s) as [|task rest] eqn:He.
  - assert (Hs : step RunPosted s = s) by (simpl; rewrite He; reflexivity).
    rewrite Hs. destruct (pending s) as [|x rest] eqn:Hp.
    + destruct (Owes_quiescent _ _ _ HO) as [_ H0]; [split; assumption|].
      apply step_Owes. eapply Owes_mono; [exact H0|lia].
    + destruct (Complete_Owes C (S W) s 0 ec n received HO) as (W' & [= <-] & H).
      { rewrite Hp. simpl. eauto. }
      assumption.
  - destruct (RunPosted_Owes C (S W) s HO) as (W' & [= <-] & H); [congruence|].
    apply step_Owes. assumption.
Qed.

Lemma drain_Owes C outcomes : forall W s,
  Owes C W s -> (W <= length outcomes)%nat -> Owes C 0 (run (drain outcomes) s).
Proof.
  induction outcomes as [|o outcomes IH]; intros W s HO Hle.
  - simpl in Hle. replace W with 0%nat in HO by lia. exact HO.
  - change (drain (o :: outcomes))
      with ([RunPosted; Complete 0 (o.1.1) (o.1.2) (o.2)] ++ drain outcomes).
    rewrite run_app. simpl in Hle. destruct W as [|W].
    + apply (IH 0%nat); [|lia]. apply run_Owes. assumption.
    + apply (IH W); [|lia]. apply round_Owes. assumption.
Qed.

(** Soundness of the accounting: a handler that owes one call has its user
    handler invoked exactly once. *)
Lemma Lin_exactly_once_from W p s0 : Lin 1 W p -> Owes 0 0 s0 -> exactly_once_from W p s0.
Proof.
  intros HL Hs0 evs s.
  assert (HO : Owes 1 W s).
  { apply run_Owes. apply (exec_Owes _ _ _ HL _ 0%nat 0%nat). exact Hs0. }
  split; [|split].
  - eapply Owes_calls_le, HO.
  - intros Hq. apply (Owes_quiescent _ _ _ HO Hq).
  - intros outcomes Hle.
    pose proof (drain_Owes 1 outcomes W s HO Hle) as H0.
    split; [apply (Owes_zero_quiescent _ _ H0)|].
    apply (Owes_quiescent _ _ _ H0), (Owes_zero_quiescent _ _ H0).
Qed.

Lemma Lin_exactly_once W p : Lin 1 W p -> exactly_once_within W p.
Proof.
  intros HL busy now open buffer. apply Lin_exactly_once_from; [exact HL|].
  apply client_Owes.
Qed.

(** ** What the operations owe *)

Lemma Lin_eq c w c' w' p : Lin c w p -> c' = c -> (w <= w')%nat -> Lin c' w' p.
Proof. intros H -> Hle. eapply Lin_weaken; eassumption. Qed.

Lemma Lin_seqP p q c w c' w' :
  Lin c w p -> Lin c' w' q -> Lin (c + c') (w + w') (seqP p q).
Proof.
  intros Hp Hq. induction Hp; simpl.
  - assumption.
  - eapply Lin_eq; [apply Lin_Log, IHHp|lia|lia].
  - constructor; auto.
  - constructor; auto.
  - constructor; auto.
  - constructor; auto.
  - constructor; auto.
  - eapply Lin_eq; [apply Lin_CallLater; [exact Hp1|exact IHHp2]|lia|lia].
  - constructor; auto.
  - constructor; auto.
  - constructor; auto.
  - eapply Lin_eq; [apply Lin_AsyncIo; [eassumption|exact IHHp]|lia|lia].
  - constructor; auto.
  - eapply Lin_weaken; [exact IHHp|lia].
  - apply Lin_Unlock. exact IHHp.
Qed.

Lemma Lin_AsyncIo_last op h c w :
  (forall ec n, Lin c w (h ec n)) -> Lin c (S w) (AsyncIo op h Ret).
Proof.
  intros Hh. eapply Lin_eq; [apply Lin_AsyncIo; [exact Hh|apply Lin_Ret]|lia|lia].
Qed.

Lemma Lin_CallLater_last task c w :
  Lin c w task -> Lin c (S w) (CallLater task Ret).
Proof.
  intros Hh. eapply Lin_eq; [apply Lin_CallLater; [exact Hh|apply Lin_Ret]|lia|lia].
Qed.

Lemma Lin_record_code e : Lin 1 0 (record_code e).
Proof. exact (Lin_Log (Called e []) Ret 0 0 Lin_Ret). Qed.

Lemma Lin_record_data e d : Lin 1 0 (record_data e d).
Proof. exact (Lin_Log (Called e d) Ret 0 0 Lin_Ret). Qed.

Lemma Lin_record_message {Message} (repr : Message -> list byte) e m :
  Lin 1 0 (record_message repr e m).
Proof. exact (Lin_Log (Called e (from_option repr [] m)) Ret 0 0 Lin_Ret). Qed.

Lemma Lin_timedAsyncOperation_completion timer handler c w opError n :
  (forall e oe m, Lin c w (handler e oe m)) ->
  Lin c w (timedAsyncOperation_completion timer handler opError n).
Proof.
  intros Hh. unfold timedAsyncOperation_completion, IsOpen_call.
  apply Lin_StopTimer, Lin_IsOpen. intros b. apply Hh.
Qed.

(** The timed wrapper hands the one completion of its operation to the
    handler; its timer handler only closes. *)
Lemma Lin_timedAsyncOperation asyncOperation timeout handler c w :
  (forall h, (forall ec n, Lin c w (h ec n)) -> Lin c (S w) (asyncOperation h)) ->
  (forall e oe m, Lin c w (handler e oe m)) ->
  Lin c (S w) (timedAsyncOperation asyncOperation timeout handler).
Proof.
  intros Hop Hh. unfold timedAsyncOperation, serialized.
  apply Lin_NewTimer. intros timer. apply Lin_StartTimeout.
  - apply Lin_Close, Lin_Ret.
  - apply Hop. intros ec n. apply Lin_timedAsyncOperation_completion, Hh.
Qed.

Lemma Lin_asyncWrite writeData timeout handler c w :
  (forall e, Lin c w (handler e)) ->
  Lin c (S w) (asyncWrite writeData timeout handler).
Proof.
  intros Hh. unfold asyncWrite. apply Lin_timedAsyncOperation.
  - intros h Hc. apply Lin_AsyncIo_last, Hc.
  - intros e oe m. unfold asyncWrite_handler.
    destruct (m <? _)%nat; apply Hh.
Qed.

Lemma Lin_asyncRead_body_handler handler numDataBytes c w e oe m :
  (forall e d, Lin c w (handler e d)) ->
  Lin c w (asyncRead_body_handler handler numDataBytes e oe m).
Proof.
  intros Hh. unfold asyncRead_body_handler.
  destruct (is_error e); [apply Hh|].
  destruct (negb _); [apply Hh|].
  apply Lin_Consume. intros d. apply Hh.
Qed.

Lemma Lin_asyncRead_header_handler timeout handler startTime c w e oe m :
  (forall e d, Lin c w (handler e d)) ->
  Lin c (S w) (asyncRead_header_handler timeout handler startTime e oe m).
Proof.
  intros Hh. unfold asyncRead_header_handler.
  destruct (is_error e); [eapply Lin_weaken; [apply Hh|lia]|].
  destruct (negb _); [eapply Lin_weaken; [apply Hh|lia]|].
  unfold numDataBytesFromBuffer. apply Lin_Consume. intros hdr.
  destruct (_ =? 0)%nat; [eapply Lin_weaken; [apply Hh|lia]|].
  apply Lin_Now. intros now. apply Lin_timedAsyncOperation.
  - intros h Hc. apply Lin_AsyncIo_last, Hc.
  - intros e' oe' m'. apply Lin_asyncRead_body_handler, Hh.
Qed.

Lemma Lin_asyncRead timeout handler c w :
  (forall e d, Lin c w (handler e d)) ->
  Lin c (S (S w)) (asyncRead timeout handler).
Proof.
  intros Hh. unfold asyncRead. apply Lin_Now. intros startTime.
  apply Lin_timedAsyncOperation.
  - intros h Hc. apply Lin_AsyncIo_last, Hc.
  - intros e oe m. apply Lin_asyncRead_header_handler, Hh.
Qed.

Lemma Lin_asyncSend {Message} Encoder (message : Message) timeout handler c w :
  (forall e, Lin c w (handler e)) ->
  Lin c (S w) (asyncSend Message Encoder message timeout handler).
Proof.
  intros Hh. unfold asyncSend. destruct (encode _ _ _).
  - apply Lin_asyncWrite. intros e. apply Hh.
  - apply Lin_CallLater_last, Hh.
Qed.

Lemma Lin_asyncReceive {Message} Decoder timeout
    (handler : ErrorCode -> option Message -> Prog) c w :
  (forall e m, Lin c w (handler e m)) ->
  Lin c (S (S w)) (asyncReceive Message Decoder timeout handler).
Proof.
  intros Hh. unfold asyncReceive. apply Lin_asyncRead. intros e d.
  unfold asyncReceive_handler. destruct (decode _ _ _); apply Hh.
Qed.

Lemma Lin_release_after {Response} (state : AsyncState Response) c w p :
  Lin c w p -> Lin c w (seqP p (release Response state)).
Proof.
  intros Hp. eapply Lin_eq; [apply (Lin_seqP _ _ _ _ 0%nat 0%nat Hp)|lia|lia].
  unfold release, Closer.destructor. destruct (Closer.alive _); repeat constructor.
Qed.

Lemma Lin_asyncCall_chain {Request Response} Encoder Decoder
    (state : AsyncState Response) (request : Request) host port c w :
  (forall e r, Lin c w (handler Response state e r)) ->
  Lin c (4 + w)
    (newSocket
       (asyncConnect host port (timeout Response state)
          (asyncCall_connected Request Response Encoder Decoder state request))).
Proof.
  intros Hh. unfold newSocket. apply Lin_IsOpen. intros open.
  assert (HC : Lin c (4 + w)
            (asyncConnect host port (timeout Response state)
               (asyncCall_connected Request Response Encoder Decoder state request))).
  { unfold asyncConnect. apply Lin_timedAsyncOperation.
    { intros h Hc. apply Lin_AsyncIo_last, Hc. }
    intros e _ _. unfold asyncCall_connected.
    destruct (is_error e).
    { apply Lin_release_after. eapply Lin_weaken; [apply Hh|lia]. }
    unfold updateTimeout. apply Lin_Now. intros t1. cbn.
    eapply Lin_weaken; [apply Lin_asyncSend|reflexivity].
    intros e1. unfold asyncCall_sent.
    destruct (is_error e1).
    { apply Lin_release_after. eapply Lin_weaken; [apply Hh|lia]. }
    unfold updateTimeout. apply Lin_Now. intros t2.
    apply Lin_asyncReceive. intros e2 r.
    apply Lin_release_after, Hh. }
  destruct (negb open); [apply Lin_NewSocket|]; exact HC.
Qed.

(** ** Closeable.h: the timed wrappers *)

Lemma insert_new_last {A} (l : list A) (x y : A) :
  <[length l := y]> (l ++ [x]) = l ++ [y].
Proof.
  rewrite insert_app_r_alt by lia. replace (length l - length l)%nat with 0%nat by lia.
  reflexivity.
Qed.

(** [timedAsyncOperation] on a plain asynchronous operation: a new timer is
    armed with the timeout and a handler that closes, and the operation is
    outstanding with the classifying completion handler. *)
Lemma timedAsyncOperation_registers op timeout handler s :
  let timer := length (timers s) in
  let s' := exec (timedAsyncOperation (fun h => AsyncIo op h Ret) timeout handler) s in
  pending s' = pending s ++ [(op, timedAsyncOperation_completion timer handler)] /\
  timers s' = timers s ++ [Some (mkTimer (clock s + timeout) (Close Ret))] /\
  trace s' = trace s ++ [TimerArmed timeout; IoStarted op] /\
  executor s' = executor s /\ is_open s' = is_open s.
Proof.
  simpl. repeat split.
  - apply insert_new_last.
  - rewrite <- app_assoc. reflexivity.
Qed.

(** The completion handler stops the timer, asks whether the closeable is
    open and calls the handler, once. *)
Lemma timedAsyncOperation_completion_exec timer handler opError args s :
  exec (timedAsyncOperation_completion timer handler opError args) s
  = exec (handler (if negb (is_open s) then ABORTED
                   else if ec_failed opError then FAILED_OPERATION
                   else SUCCESS) opError args)
         (Timer_stop timer s).
Proof. reflexivity. Qed.

(** The synchronous wrapper never assigns [closeableError], so the test after
    the wait always sees [would_block]. *)
Lemma timedOperation_closeableError error arg open :
  TimedOperation.closeableError (TimedOperation.timedOperation error arg open).1
  = ec_would_block.
Proof. reflexivity. Qed.

(** C3, on the code: whatever the awaited operation reported and whether or
    not the transport is open, [timedOperation] stores the result and throws
    [FailedOperation]; it never returns normally and never throws [Aborted]. *)
Theorem timedOperation_always_throws_FailedOperation error arg open :
  TimedOperation.timedOperation error arg open
  = (TimedOperation.mkLocals ec_would_block (Some (error, arg)),
     TimedOperation.Thrown FAILED_OPERATION).
Proof. destruct open; reflexivity. Qed.

(** The case of the claim: no error, transport open, and still an exception. *)
Example timedOperation_success_throws :
  (TimedOperation.timedOperation ec_success 4 true).2
  = TimedOperation.Thrown FAILED_OPERATION.
Proof. reflexivity. Qed.

(** ** asionet/Stream.h *)

(** The frame of ["ping"] on the wire: [00 00 00 04 70 69 6e 67]. *)
Example Frame_ping :
  Frame.getBuffers (Frame.make ping) = [x00; x00; x00; x04; x70; x69; x6e; x67] /\
  Frame.getSize (Frame.make ping) = 8%nat /\
  fromBigEndian4 (Frame.header (Frame.make ping)) = 4%N.
Proof. repeat split. Qed.

(** The write handler tests the byte count before it looks at the error. *)
Lemma asyncWrite_handler_short frame handler error opError n :
  (n < Frame.getSize frame)%nat ->
  asyncWrite_handler frame handler error opError n = handler FAILED_OPERATION.
Proof.
  intros Hn. unfold asyncWrite_handler.
  destruct (Nat.ltb_spec n (Frame.getSize frame)); [reflexivity|lia].
Qed.

(** C2, on the code: when the deadline of a framed write expires, the timer
    closes the transport, the write completes with [operation_aborted] and no
    byte written, and the user handler receives [FAILED_OPERATION], not
    [ABORTED]. *)
Theorem asyncWrite_deadline_reports_FailedOperation writeData (timeout : N) now :
  let s := run (deadline_expiry timeout)
               (exec (asyncWrite writeData (Z.of_N timeout) record_code)
                     (idle now true [])) in
  is_open s = false /\
  trace s = [TimerArmed (Z.of_N timeout);
             IoStarted (OpWrite (Frame.getBuffers (Frame.make writeData)));
             Closed; Called FAILED_OPERATION []].
Proof.
  simpl. rewrite Z.leb_refl. simpl. split; reflexivity.
Qed.

Example asyncWrite_deadline_ping :
  calls (trace (run (deadline_expiry 100)
                  (exec (asyncWrite ping 100 record_code) (idle 0 true []))))
  = [Called FAILED_OPERATION []].
Proof. reflexivity. Qed.

(** The framed read tests the error first: the same expiry reaches the user
    handler as [ABORTED]. *)
Lemma asyncRead_deadline_reports_Aborted (timeout : N) now buffer :
  calls (trace (run (deadline_expiry timeout)
                  (exec (asyncRead (Z.of_N timeout) record_data) (idle now true buffer))))
  = [Called ABORTED []].
Proof.
  simpl. rewrite Z.leb_refl. reflexivity.
Qed.

(** The whole run: one read is started, and the handler is called with
    success and no data. *)
Example asyncRead_empty_frame_run :
  trace (run [Complete 0 ec_success 0 [x00; x00; x00; x00]]
           (exec (asyncRead 100 record_data) (idle 0 true [])))
  = [TimerArmed 100; IoStarted (OpRead 4); Called SUCCESS []].
Proof. reflexivity. Qed.

(** C6: [asyncRead] reads the clock at entry, and when the header read has
    completed without error with 4 bytes that announce [N <> 0] bytes, the
    header handler starts the body read of exactly [N] bytes with the timeout
    [timeout - (now - startTime)], where [now] is the clock at that moment:
    the deadline stays where it was set at entry. *)
Theorem asyncRead_body_timeout timeout handler s0 opError s :
  let startTime := clock s0 in
  let N := N.to_nat (fromBigEndian4 (stringFromStreambuf 4 s).1) in
  N <> 0%nat ->
  exec (asyncRead timeout handler) s0
  = exec (timedAsyncOperation (async_read Frame.HEADER_SIZE) timeout
            (asyncRead_header_handler timeout handler startTime)) s0 /\
  exec (asyncRead_header_handler timeout handler startTime SUCCESS opError Frame.HEADER_SIZE) s
  = exec (timedAsyncOperation (async_read N) (timeout - (clock s - startTime))
            (asyncRead_body_handler handler N))
         (stringFromStreambuf 4 s).2 /\
  trace (exec (asyncRead_header_handler timeout handler startTime SUCCESS opError
                 Frame.HEADER_SIZE) s)
  = trace s ++ [TimerArmed (timeout - (clock s - startTime)); IoStarted (OpRead N)] /\
  timers (exec (asyncRead_header_handler timeout handler startTime SUCCESS opError
                  Frame.HEADER_SIZE) s)
  = timers s ++ [Some (mkTimer (startTime + timeout) (Close Ret))].
Proof.
  intros startTime N HN. split; [reflexivity|].
  unfold asyncRead_header_handler, numDataBytesFromBuffer. subst N. simpl in *.
  set (N := N.to_nat (fromBigEndian4 (take 4 (streambuf s)))) in *.
  destruct (Nat.eqb_spec N 0) as [E|_]; [contradiction|]. simpl.
  repeat split.
  - rewrite <- app_assoc. reflexivity.
  - rewrite insert_new_last. unfold serialized.
    replace (clock s + (timeout - (clock s - startTime))) with (startTime + timeout) by lia.
    reflexivity.
Qed.

Lemma asyncRead_body_timeout_witness :
  N.to_nat (fromBigEndian4 (stringFromStreambuf 4 (idle 37 true [x00; x00; x00; x04])).1)
  <> 0%nat /\
  trace (exec (asyncRead_header_handler 100 record_data 7 SUCCESS ec_success
                 Frame.HEADER_SIZE)
           (idle 37 true [x00; x00; x00; x04]))
  = [TimerArmed (100 - (37 - 7)); IoStarted (OpRead 4)].
Proof.
  split; [discriminate|].
  apply (asyncRead_body_timeout 100 record_data (idle 7 true []) ec_success
           (idle 37 true [x00; x00; x00; x04])).
  discriminate.
Defined.

(** The whole run: entry at 7 with timeout 100, header after 30, body read
    armed with 70. *)
Example asyncRead_body_timeout_run :
  trace (run [Tick 30; Complete 0 ec_success 0 [x00; x00; x00; x04]]
           (exec (asyncRead 100 record_data) (idle 7 true [])))
  = [TimerArmed 100; IoStarted (OpRead 4); TimerArmed 70; IoStarted (OpRead 4)].
Proof. reflexivity. Qed.

(** ** Message.h *)

(** C8: when the user's encoder fails, [asyncSend] and [asyncSendDatagram]
    only post the handler with [ENCODING] to the executor: during the
    submitting call the handler is not invoked and no transport operation is
    started or timer armed (the state changes in its executor queue only), and
    the handler runs with [ENCODING] when the executor runs the posted task. *)
Theorem encode_failure_is_posted
    (Message Host : Type) (Encoder : Message -> option (list byte))
    (asyncSendTo : list byte -> Host -> nat -> Z -> (ErrorCode -> Prog) -> Prog)
    message host port timeout handler s :
  Encoder message = None ->
  exec (asyncSend Message Encoder message timeout handler) s
  = callLater (handler ENCODING) s /\
  exec (asyncSendDatagram Message Encoder Host asyncSendTo message host port timeout handler) s
  = callLater (handler ENCODING) s /\
  (executor s = [] ->
   step RunPosted (exec (asyncSend Message Encoder message timeout handler) s)
   = exec (handler ENCODING) s /\
   step RunPosted
     (exec (asyncSendDatagram Message Encoder Host asyncSendTo message host port timeout
              handler) s)
   = exec (handler ENCODING) s).
Proof.
  intros HE. unfold asyncSend, asyncSendDatagram, encode. rewrite HE. simpl.
  split; [reflexivity|]. split; [reflexivity|].
  intros Hs. unfold callLater. simpl. rewrite Hs. simpl.
  replace (set_executor [] (set_executor [handler ENCODING] s)) with s;
    [split; reflexivity|].
  destruct s; simpl in *. subst. reflexivity.
Qed.

Lemma encode_failure_is_posted_witness :
  (fun _ : list byte => @None (list byte)) ping = None /\
  trace (exec (asyncSend (list byte) (fun _ => None) ping 100 record_code) (idle 0 true []))
  = [] /\
  trace (step RunPosted
           (exec (asyncSend (list byte) (fun _ => None) ping 100 record_code)
              (idle 0 true [])))
  = [Called ENCODING []].
Proof.
  pose proof (encode_failure_is_posted (list byte) unit (fun _ => None)
                (fun _ _ _ _ _ => Ret) ping tt 0%nat 100 record_code (idle 0 true [])
                eq_refl) as (H1 & _ & H3).
  split; [reflexivity|]. split.
  - rewrite H1. reflexivity.
  - rewrite (proj1 (H3 eq_refl)). reflexivity.
Defined.

(** The receive handler runs the decoder before it looks at the error code. *)
Lemma asyncReceive_handler_decodes_first
    (Message : Type) (Decoder : list byte -> option (option Message)) handler errorCode data :
  Decoder data = None ->
  asyncReceive_handler Message Decoder handler errorCode data = handler DECODING None.
Proof. intros H. unfold asyncReceive_handler, decode. rewrite H. reflexivity. Qed.

Lemma asyncReceiveDatagram_handler_decodes_first
    (Message Host : Type) (Decoder : list byte -> option (option Message)) handler error data
    (senderHost : Host) senderPort :
  Decoder data = None ->
  asyncReceiveDatagram_handler Message Decoder Host handler error data senderHost senderPort
  = handler DECODING None senderHost senderPort.
Proof. intros H. unfold asyncReceiveDatagram_handler, decode. rewrite H. reflexivity. Qed.

(** C9, on the code: the deadline of the header read expires, the read ends
    with [ABORTED] and empty data, the decoder is run on the empty data all
    the same, and with a decoder that rejects it the user handler receives
    [DECODING] in place of [ABORTED]. *)
Theorem asyncReceive_read_error_reported_as_Decoding (timeout : N) now :
  let s := run (deadline_expiry timeout)
               (exec (asyncReceive (list byte) Decoder_nonempty (Z.of_N timeout)
                        (record_message id))
                     (idle now true [])) in
  trace s = [TimerArmed (Z.of_N timeout); IoStarted (OpRead 4); Closed;
             Called DECODING []].
Proof.
  simpl. rewrite Z.leb_refl. reflexivity.
Qed.

(** With the decoder of [std::string], which never throws, the same expiry is
    reported as [ABORTED]. *)
Example asyncReceive_deadline_string :
  calls (trace (run (deadline_expiry 100)
                  (exec (asyncReceive (list byte) Decoder_string 100 (record_message id))
                        (idle 0 true []))))
  = [Called ABORTED []].
Proof. reflexivity. Qed.

(** ** Exactly one call of the user handler *)

(** On a client that is not busy the call takes the busy flag and starts its
    chain on a new buffer; on a busy client the constructor of the state
    throws and the call has done nothing else. *)
Lemma asyncCallOperation_not_busy {Request Response} Encoder Decoder
    (handler : CallHandler Response) (request : Request) host port timeout s :
  busy s = false ->
  exec (asyncCallOperation Request Response Encoder Decoder handler request host port
          timeout) s
  = exec (newSocket
            (asyncConnect host port timeout
               (asyncCall_connected Request Response Encoder Decoder
                  (mkAsyncState Response BusyLock_held handler timeout (clock s)
                     (Closer.make 0 true))
                  request)))
         (set_streambuf [] (set_busy true s)).
Proof.
  intros Hb. unfold asyncCallOperation, AsyncState_new. simpl.
  unfold BusyLock_acquire. rewrite Hb. reflexivity.
Qed.

Lemma asyncCallOperation_busy {Request Response} Encoder Decoder
    (handler : CallHandler Response) (request : Request) host port timeout s :
  busy s = true ->
  exec (asyncCallOperation Request Response Encoder Decoder handler request host port
          timeout) s
  = log (Threw BUSY) s.
Proof.
  intros Hb. unfold asyncCallOperation, AsyncState_new. simpl.
  unfold BusyLock_acquire. rewrite Hb. reflexivity.
Qed.

(** C4, as the code has it: the user handler of [asyncWrite], [asyncRead],
    [asyncSend] and [asyncReceive], and that of [asyncCallOperation] on a
    client that is not busy, is invoked exactly once on every path: whatever
    the operations report, whenever timers fire, whether or not the client is
    stopped and whether or not the encoder or decoder fails, it is never
    invoked twice, it has been invoked once when nothing is left to run, and
    nothing is left to run after a bounded number of fair rounds.  On a busy
    client [asyncCallOperation] throws [Busy] when it constructs its state:
    nothing is started or posted and the handler is not invoked. *)
Theorem handler_invoked_exactly_once :
  (forall writeData timeout,
      exactly_once_within 1 (asyncWrite writeData timeout record_code)) /\
  (forall timeout,
      exactly_once_within 2 (asyncRead timeout record_data)) /\
  (forall (Message : Type) (Encoder : Message -> option (list byte)) message timeout,
      exactly_once_within 1 (asyncSend Message Encoder message timeout record_code)) /\
  (forall (Message : Type) (Decoder : list byte -> option (option Message)) repr timeout,
      exactly_once_within 2
        (asyncReceive Message Decoder timeout (record_message repr))) /\
  (forall (Request Response : Type) (Encoder : Request -> option (list byte))
          (Decoder : list byte -> option (option Response)) repr request host port timeout
          now open buffer,
      exactly_once_from 4
        (asyncCallOperation Request Response Encoder Decoder (record_message repr)
           request host port timeout)
        (idle now open buffer)) /\
  (forall (Request Response : Type) (Encoder : Request -> option (list byte))
          (Decoder : list byte -> option (option Response)) handler request host port
          timeout s,
      busy s = true ->
      exec (asyncCallOperation Request Response Encoder Decoder handler request host port
              timeout) s
      = log (Threw BUSY) s).
Proof.
  split; [|split; [|split; [|split; [|split]]]]; intros.
  - apply Lin_exactly_once, Lin_asyncWrite, Lin_record_code.
  - apply Lin_exactly_once, Lin_asyncRead, Lin_record_data.
  - apply Lin_exactly_once, Lin_asyncSend, Lin_record_code.
  - apply Lin_exactly_once, Lin_asyncReceive, Lin_record_message.
  - intros evs. rewrite asyncCallOperation_not_busy by reflexivity.
    refine (Lin_exactly_once_from 4 _ _ _ (client_Owes true now open []) evs).
    apply (Lin_asyncCall_chain Encoder Decoder
             (mkAsyncState Response BusyLock_held _ _ _ _) request host port 1%nat 0%nat).
    intros e r. apply Lin_record_message.
  - apply asyncCallOperation_busy. assumption.
Qed.

(** A call on a client that is not busy, after its connect has completed: it
    has not called the handler twice, and four fair rounds, in which the
    request is written and the header and the body of the response are read,
    leave nothing to run and the handler called once. *)
Lemma handler_invoked_exactly_once_witness :
  let s := run [Tick 5; Complete 0 ec_success 0 []]
               (exec (asyncCallOperation (list byte) (list byte) Encoder_string
                        Decoder_string (record_message id) ping localhost 80 100)
                     (idle 0 false [])) in
  let outcomes := [(ec_success, 8%nat, []); (ec_success, 4%nat, header_of_two);
                   (ec_success, 2%nat, ok); (ec_eof, 0%nat, [])] in
  (length (calls (trace s)) <= 1)%nat /\
  (4 <= length outcomes)%nat /\
  quiescent (run (drain outcomes) s) /\
  length (calls (trace (run (drain outcomes) s))) = 1%nat.
Proof.
  intros s outcomes.
  pose proof (proj1 (proj2 (proj2 (proj2 (proj2 handler_invoked_exactly_once))))
                (list byte) (list byte) Encoder_string Decoder_string id ping localhost
                80%nat 100
                0 false [] [Tick 5; Complete 0 ec_success 0 []])
    as (H1 & _ & H3).
  split; [exact H1|]. split; [simpl; lia|].
  apply H3. simpl. lia.
Defined.

(** C4, as the claim has it, fails on a busy client: [asyncCallOperation]
    throws [Busy], nothing is left to run, and the handler was not invoked. *)
Lemma asyncCallOperation_on_busy_client_never_calls :
  let p := asyncCallOperation (list byte) (list byte) Encoder_string Decoder_string
             (record_message id) ping localhost 80 100 in
  let s := exec p (client true 0 true []) in
  trace s = [Threw BUSY] /\ quiescent s /\ length (calls (trace s)) = 0%nat /\
  ~ exactly_once_within 4 p.
Proof.
  intros p s. split; [reflexivity|]. split; [split; reflexivity|]. split; [reflexivity|].
  intros H. destruct (H true 0 true [] []) as (_ & H2 & _).
  specialize (H2 (conj eq_refl eq_refl)). discriminate H2.
Qed.

(** ** Closeable.h: the scoped closer *)

(** The destructor closes the guarded object only while the guard is alive. *)
Lemma Closer_destroy_closed this g h :
  Closer.guards h !! this = Some (Some g) ->
  Closer.closed (Closer.destroy this h)
  = if Closer.alive g then Closer.closed h ++ [Closer.closeable g] else Closer.closed h.
Proof.
  intros Hg. unfold Closer.destroy. rewrite Hg. destruct (Closer.alive g); reflexivity.
Qed.

(** Move construction and move assignment leave their source not alive. *)
Lemma Closer_move_construct_source other o h :
  Closer.guards h !! other = Some (Some o) ->
  Closer.guards (Closer.move_construct other h) !! other
  = Some (Some (Closer.make (Closer.closeable o) false)).
Proof.
  intros Ho. unfold Closer.move_construct. rewrite Ho. simpl.
  pose proof (lookup_lt_Some _ _ _ Ho) as Hlt.
  rewrite lookup_app_l by (rewrite length_insert; exact Hlt).
  apply list_lookup_insert_eq, Hlt.
Qed.

Lemma Closer_move_assign_source this other g o h :
  Closer.guards h !! this = Some (Some g) ->
  Closer.guards h !! other = Some (Some o) ->
  exists c, Closer.guards (Closer.move_assign this other h) !! other
            = Some (Some (Closer.make c false)).
Proof.
  intros Hg Ho. unfold Closer.move_assign. rewrite Hg, Ho.
  pose proof (lookup_lt_Some _ _ _ Hg) as Hlt. pose proof (lookup_lt_Some _ _ _ Ho) as Hlo.
  destruct (decide (this = other)) as [->|Hne].
  - rewrite list_lookup_insert_eq by exact Hlo. simpl.
    eexists. apply list_lookup_insert_eq. rewrite length_insert. exact Hlo.
  - rewrite list_lookup_insert_ne by exact Hne. rewrite Ho. simpl.
    eexists. apply list_lookup_insert_eq. rewrite length_insert. exact Hlo.
Qed.

(** So a moved-from guard closes nothing when it is destroyed. *)
Lemma Closer_moved_from_never_closes this other g o h :
  Closer.guards h !! this = Some (Some g) ->
  Closer.guards h !! other = Some (Some o) ->
  Closer.closed (Closer.destroy other (Closer.move_construct other h)) = Closer.closed h /\
  Closer.closed (Closer.destroy other (Closer.move_assign this other h)) = Closer.closed h.
Proof.
  intros Hg Ho. split.
  - rewrite (Closer_destroy_closed _ _ _ (Closer_move_construct_source _ _ _ Ho)). simpl.
    unfold Closer.move_construct. rewrite Ho. reflexivity.
  - destruct (Closer_move_assign_source _ _ _ _ _ Hg Ho) as [c Hc].
    rewrite (Closer_destroy_closed _ _ _ Hc). simpl.
    unfold Closer.move_assign. rewrite Hg, Ho. reflexivity.
Qed.

(** The move constructor does not look at [other.alive]: the new guard is
    alive also when the source no longer was. *)
Lemma Closer_move_construct_alive other o h :
  Closer.guards h !! other = Some (Some o) ->
  Closer.guards (Closer.move_construct other h) !! length (Closer.guards h)
  = Some (Some (Closer.make (Closer.closeable o) true)).
Proof.
  intros Ho. unfold Closer.move_construct. rewrite Ho. simpl.
  rewrite lookup_app_r by (rewrite length_insert; lia).
  rewrite length_insert. replace (_ - _)%nat with 0%nat by lia. reflexivity.
Qed.

Lemma Closer_owners_app c l1 l2 :
  Closer.owners c (l1 ++ l2) = (Closer.owners c l1 + Closer.owners c l2)%nat.
Proof. unfold Closer.owners. rewrite list.filter_app, length_app. reflexivity. Qed.

Lemma Closer_owners_cons c g l :
  Closer.owners c (g :: l) = (Closer.owners c [g] + Closer.owners c l)%nat.
Proof. apply (Closer_owners_app c [g] l). Qed.

Lemma Closer_owners_insert c l i x y :
  l !! i = Some y ->
  (Closer.owners c (<[i := x]> l) + Closer.owners c [y]
   = Closer.owners c l + Closer.owners c [x])%nat.
Proof.
  revert i. induction l as [|g l IH]; intros i Hi; [destruct i; discriminate|].
  destruct i as [|i]; simpl in *.
  - inversion Hi; subst. rewrite (Closer_owners_cons c x l), (Closer_owners_cons c y l). lia.
  - rewrite (Closer_owners_cons c g (<[i:=x]> l)), (Closer_owners_cons c g l).
    specialize (IH i Hi). lia.
Qed.

Lemma Closer_owners_one c g :
  Closer.owners c [Some g] = if decide (g = Closer.make c true) then 1%nat else 0%nat.
Proof.
  unfold Closer.owners. rewrite filter_cons. simpl.
  destruct (decide (g = Closer.make c true)) as [->|Hne].
  - rewrite decide_True by reflexivity. reflexivity.
  - rewrite decide_False by congruence. reflexivity.
Qed.

Lemma Closer_owners_none c : Closer.owners c [None] = 0%nat.
Proof. reflexivity. Qed.

Lemma Closer_closes_close c h :
  Closer.closes 0 (Closer.close c h)
  = (Closer.closes 0 h + if decide (c = 0%nat) then 1 else 0)%nat.
Proof.
  unfold Closer.closes, Closer.close. simpl. rewrite list.filter_app, length_app. f_equal.
  rewrite filter_cons. simpl. destruct (decide (c = 0%nat)); reflexivity.
Qed.

Lemma lookup_insert_Some_inv {A} (l : list A) i j x y :
  <[i := x]> l !! j = Some y -> (y = x) \/ l !! j = Some y.
Proof.
  intros H. destruct (decide (i = j)) as [->|Hne].
  - destruct (decide (j < length l)%nat).
    + rewrite list_lookup_insert_eq in H by assumption. inversion H; auto.
    + rewrite list_insert_ge in H by lia. auto.
  - rewrite list_lookup_insert_ne in H by assumption. auto.
Qed.

(** Every step of such a program keeps the invariant. *)
Lemma Closer_apply_one_owner op h :
  Closer.one_owner h -> Closer.live_source op h = true ->
  Closer.one_owner (Closer.apply op h).
Proof.
  intros [Hc Hn] Hl. destruct op as [c|other|this other|this]; simpl in *.
  - discriminate.
  - unfold Closer.move_construct.
    destruct (Closer.guards h !! other) as [[o|]|] eqn:Ho; try (split; assumption).
    pose proof (Hc _ _ Ho) as Hco. destruct o as [co ao]. simpl in *. subst.
    split; simpl.
    + intros i g Hi.
      destruct (decide (i < length (<[other:=Some (Closer.make 0 false)]>
                                      (Closer.guards h)))%nat).
      * rewrite lookup_app_l in Hi by assumption.
        apply lookup_insert_Some_inv in Hi as [[= ->]|Hi]; [reflexivity|eauto].
      * rewrite lookup_app_r in Hi by lia.
        destruct (i - _)%nat; simpl in Hi; [inversion Hi; reflexivity|discriminate].
    + rewrite Closer_owners_app.
      pose proof (Closer_owners_insert 0 _ _ (Some (Closer.make 0 false)) _ Ho) as H.
      rewrite !Closer_owners_one in *. simpl in *. unfold Closer.closes in *. simpl. lia.
  - unfold Closer.move_assign.
    destruct (Closer.guards h !! this) as [[g|]|] eqn:Hg; try (split; assumption).
    destruct (Closer.guards h !! other) as [[o|]|] eqn:Ho; try (split; assumption).
    pose proof (Hc _ _ Hg) as Hcg. pose proof (Hc _ _ Ho) as Hco.
    destruct g as [cg ag], o as [co ao]. simpl in *. subst.
    pose proof (lookup_lt_Some _ _ _ Hg) as Hlg.
    pose proof (lookup_lt_Some _ _ _ Ho) as Hlo.
    set (gs1 := <[this := Some (Closer.make 0 ao)]> (Closer.guards h)).
    assert (H1 := Closer_owners_insert 0 _ _ (Some (Closer.make 0 ao)) _ Hg). fold gs1 in H1.
    assert (Ho1 : gs1 !! other = Some (Some (Closer.make 0 ao))).
    { unfold gs1. destruct (decide (this = other)) as [->|Hne].
      - apply list_lookup_insert_eq. assumption.
      - rewrite list_lookup_insert_ne by assumption. assumption. }
    rewrite Ho1. simpl.
    assert (H2 := Closer_owners_insert 0 _ _ (Some (Closer.make 0 false)) _ Ho1).
    split; simpl.
    + intros i g Hi.
      apply lookup_insert_Some_inv in Hi as [[= ->]|Hi]; [reflexivity|].
      apply lookup_insert_Some_inv in Hi as [[= ->]|Hi]; [reflexivity|eauto].
    + rewrite !Closer_owners_one in *. simpl in *. unfold Closer.closes in *. simpl.
      destruct ag, ao; simpl in *; lia.
  - unfold Closer.destroy.
    destruct (Closer.guards h !! this) as [[g|]|] eqn:Hg; try (split; assumption).
    pose proof (Hc _ _ Hg) as Hcg. destruct g as [cg ag]. simpl in *. subst.
    assert (H1 := Closer_owners_insert 0 _ _ None _ Hg).
    rewrite Closer_owners_one, Closer_owners_none in H1.
    split.
    + intros i g Hi. simpl in Hi. destruct ag; simpl in Hi;
      apply lookup_insert_Some_inv in Hi as [[=]|Hi]; eauto.
    + destruct ag; simpl.
      * change (Closer.closes 0 _) with (Closer.closes 0 (Closer.close 0 h)).
        rewrite Closer_closes_close. simpl in *. lia.
      * change (Closer.closes 0 _) with (Closer.closes 0 h). simpl in *. lia.
Qed.

(** What holds of the claim: one guard constructed on a transport, then any
    moves and destructions in which no guard is move-constructed from a guard
    that is no longer alive: [close] is called at most once. *)
Lemma Closer_live_chain_closes_at_most_once ops :
  let h := Closer.construct 0 Closer.start in
  Closer.live_sources ops h = true -> (Closer.closes 0 (Closer.run ops h) <= 1)%nat.
Proof.
  intros h Hops.
  assert (HI : Closer.one_owner h).
  { split; [|cbv; lia]. intros [|i] g Hi; simpl in Hi; [|discriminate].
    inversion Hi. reflexivity. }
  clearbody h. revert h HI Hops.
  induction ops as [|op ops IH]; intros h HI Hops; simpl in *.
  - destruct HI as [_ HI]. lia.
  - apply andb_prop in Hops as [H1 H2].
    apply IH; [apply Closer_apply_one_owner; assumption|exact H2].
Qed.

(** C10, on the code: a guard is constructed on a transport and two guards
    are move-constructed from it, the second from the moved-from guard; both
    are alive, and destroying the three guards calls [close] on the transport
    twice. *)
Theorem Closer_move_from_moved_from_closes_twice :
  let h := Closer.run [Closer.Construct 0; Closer.MoveConstruct 0; Closer.MoveConstruct 0;
                       Closer.Destroy 2; Closer.Destroy 1; Closer.Destroy 0]
                      Closer.start in
  Closer.closed h = [0%nat; 0%nat] /\ Closer.closes 0 h = 2%nat.
Proof. split; reflexivity. Qed.

(** Move assignment copies [other.alive], so the same chain built with it
    closes once. *)
Example Closer_move_assign_from_moved_from_closes_once :
  Closer.closes 0
    (Closer.run [Closer.Construct 0; Closer.MoveConstruct 0; Closer.Construct 0;
                 Closer.MoveAssign 2 0;
                 Closer.Destroy 2; Closer.Destroy 1; Closer.Destroy 0]
                Closer.start)
  = 1%nat.
Proof. reflexivity. Qed.

(** * Further properties of the code *)

(** ** The frame header *)

Lemma to_N_byte_of_N n : Byte.to_N (byte_of_N n) = (n mod 256)%N.
Proof.
  unfold byte_of_N. destruct (Byte.of_N (n mod 256)) as [b|] eqn:E.
  - apply Byte.to_of_N in E. exact E.
  - apply Byte.of_N_None_iff in E.
    pose proof (N.mod_upper_bound n 256). lia.
Qed.

(** A length below [2^32] is read back from its four bytes. *)
Lemma fromBigEndian4_toBigEndian4 n :
  (n < 4294967296)%N -> fromBigEndian4 (toBigEndian4 n) = n.
Proof.
  intros Hn. unfold fromBigEndian4, toBigEndian4. simpl.
  rewrite !to_N_byte_of_N.
  assert (E3 : (n / 16777216 = n / 65536 / 256)%N) by (rewrite N.Div0.div_div; reflexivity).
  assert (E2 : (n / 65536 = n / 256 / 256)%N) by (rewrite N.Div0.div_div; reflexivity).
  assert (H3 : (n / 16777216 < 256)%N) by (apply N.Div0.div_lt_upper_bound; lia).
  rewrite (N.mod_small (n / 16777216) 256) by exact H3.
  pose proof (N.div_mod (n / 65536) 256 ltac:(lia)) as D2.
  pose proof (N.div_mod (n / 256) 256 ltac:(lia)) as D1.
  pose proof (N.div_mod n 256 ltac:(lia)) as D0.
  rewrite <- E3 in D2. rewrite <- E2 in D1.
  set (a := (n / 16777216)%N) in *. set (b := ((n / 65536) mod 256)%N) in *.
  set (c := ((n / 256) mod 256)%N) in *. set (d := (n mod 256)%N) in *.
  set (q2 := (n / 65536)%N) in *. set (q1 := (n / 256)%N) in *.
  lia.
Qed.

Lemma Frame_header_length f : length (Frame.header f) = Frame.HEADER_SIZE.
Proof. reflexivity. Qed.

Lemma Frame_header_decodes f :
  (N.of_nat (length (Frame.data f)) < 4294967296)%N ->
  N.to_nat (fromBigEndian4 (Frame.header f)) = length (Frame.data f).
Proof.
  intros Hn. unfold Frame.header. rewrite N.mod_small by exact Hn.
  rewrite fromBigEndian4_toBigEndian4 by exact Hn. apply Nat2N.id.
Qed.

Lemma Frame_getBuffers_split f :
  take 4 (Frame.getBuffers f) = Frame.header f /\
  drop 4 (Frame.getBuffers f) = Frame.data f.
Proof.
  unfold Frame.getBuffers. pose proof (Frame_header_length f) as Hh.
  unfold Frame.HEADER_SIZE in Hh. split.
  - rewrite take_app_le by lia. apply take_ge. lia.
  - rewrite drop_app_ge by lia. rewrite Hh. reflexivity.
Qed.

(** ** One completed operation after another *)

Lemma run_two e1 e2 evs s : run (e1 :: e2 :: evs) s = run evs (run [e1; e2] s).
Proof. reflexivity. Qed.

(** [timedAsyncOperation] arms a new timer and leaves the operation
    outstanding. *)
Lemma timedAsyncOperation_starts asyncOperation op timeout handler c open buffer ts tr b :
  (forall h, asyncOperation h = AsyncIo op h Ret) ->
  exec (timedAsyncOperation asyncOperation timeout handler)
       (mkState c open buffer [] ts [] tr b)
  = mkState c open buffer []
      (ts ++ [Some (mkTimer (c + timeout) (serialized (Close Ret)))])
      [(op, serialized (timedAsyncOperation_completion (length ts) handler))]
      (tr ++ [TimerArmed timeout; IoStarted op]) b.
Proof.
  intros Hop. unfold timedAsyncOperation. simpl. rewrite Hop. simpl.
  unfold log, Timer_startTimeout, set_timers, set_pending, set_clock. simpl.
  rewrite insert_new_last, <- app_assoc. reflexivity.
Qed.

(** Time passes and the operation completes: its timer is stopped and the
    handler gets the classified outcome. *)
Lemma timedAsyncOperation_completion_runs op handler c open buffer ts tm tr b
    dt ec n received :
  run [Tick dt; Complete 0 ec n received]
    (mkState c open buffer [] (ts ++ [Some tm])
       [(op, serialized (timedAsyncOperation_completion (length ts) handler))] tr b)
  = exec (handler (if negb (open_after op ec open) then ABORTED
                   else if ec_failed ec then FAILED_OPERATION else SUCCESS)
                  ec (count_after op n received))
         (mkState (c + Z.of_N dt) (open_after op ec open) (buffer_after op buffer received)
            [] (ts ++ [None]) [] tr b).
Proof.
  destruct op as [k|bytes|host port]; [| |destruct (ec_failed ec) eqn:Hec];
    simpl; rewrite ?Hec; simpl;
    unfold Timer_stop, set_timers, set_streambuf, set_clock, set_pending, set_open; simpl;
    rewrite insert_new_last; reflexivity.
Qed.

Lemma timedAsyncOperation_completes asyncOperation op timeout handler
    c open buffer ts tr b dt ec n received :
  (forall h, asyncOperation h = AsyncIo op h Ret) ->
  run [Tick dt; Complete 0 ec n received]
    (exec (timedAsyncOperation asyncOperation timeout handler)
          (mkState c open buffer [] ts [] tr b))
  = exec (handler (if negb (open_after op ec open) then ABORTED
                   else if ec_failed ec then FAILED_OPERATION else SUCCESS)
                  ec (count_after op n received))
         (mkState (c + Z.of_N dt) (open_after op ec open) (buffer_after op buffer received)
            [] (ts ++ [None]) [] (tr ++ [TimerArmed timeout; IoStarted op]) b).
Proof.
  intros Hop. rewrite (timedAsyncOperation_starts _ op) by exact Hop.
  apply timedAsyncOperation_completion_runs.
Qed.

(** The header handler on a complete header: an empty payload ends the read,
    any other starts the body read with what is left of the timeout. *)
Lemma asyncRead_header_handler_empty timeout handler startTime ec c buffer ts tr b :
  N.to_nat (fromBigEndian4 (take 4 buffer)) = 0%nat ->
  exec (asyncRead_header_handler timeout handler startTime SUCCESS ec Frame.HEADER_SIZE)
       (mkState c true buffer [] ts [] tr b)
  = exec (handler SUCCESS []) (mkState c true (drop 4 buffer) [] ts [] tr b).
Proof.
  intros HN. unfold asyncRead_header_handler, numDataBytesFromBuffer. simpl.
  rewrite HN. reflexivity.
Qed.

Lemma asyncRead_header_handler_body timeout handler startTime ec c buffer ts tr b :
  N.to_nat (fromBigEndian4 (take 4 buffer)) <> 0%nat ->
  exec (asyncRead_header_handler timeout handler startTime SUCCESS ec Frame.HEADER_SIZE)
       (mkState c true buffer [] ts [] tr b)
  = exec (timedAsyncOperation (async_read (N.to_nat (fromBigEndian4 (take 4 buffer))))
            (timeout - (c - startTime))
            (asyncRead_body_handler handler (N.to_nat (fromBigEndian4 (take 4 buffer)))))
         (mkState c true (drop 4 buffer) [] ts [] tr b).
Proof.
  intros HN. unfold asyncRead_header_handler, numDataBytesFromBuffer. simpl.
  destruct (Nat.eqb_spec (N.to_nat (fromBigEndian4 (take 4 buffer))) 0) as [|_];
    [contradiction|reflexivity].
Qed.

Lemma asyncRead_body_handler_complete handler N ec c buffer ts tr b :
  exec (asyncRead_body_handler handler N SUCCESS ec N) (mkState c true buffer [] ts [] tr b)
  = exec (handler SUCCESS (take N buffer)) (mkState c true (drop N buffer) [] ts [] tr b).
Proof. unfold asyncRead_body_handler. simpl. rewrite Nat.eqb_refl. reflexivity. Qed.

(** [asyncRead] when the header announces no payload. *)
Lemma asyncRead_header_only timeout handler c stale ts tr b hdr dt1 n1 :
  N.to_nat (fromBigEndian4 (take 4 (stale ++ hdr))) = 0%nat ->
  length hdr = Frame.HEADER_SIZE ->
  run [Tick dt1; Complete 0 ec_success n1 hdr]
      (exec (asyncRead timeout handler) (mkState c true stale [] ts [] tr b))
  = exec (handler SUCCESS [])
         (mkState (c + Z.of_N dt1) true (drop 4 (stale ++ hdr)) [] (ts ++ [None]) []
            (tr ++ [TimerArmed timeout; IoStarted (OpRead 4)]) b).
Proof.
  intros HN Hh.
  change (exec (asyncRead timeout handler) (mkState c true stale [] ts [] tr b))
    with (exec (timedAsyncOperation (async_read Frame.HEADER_SIZE) timeout
                  (asyncRead_header_handler timeout handler c))
               (mkState c true stale [] ts [] tr b)).
  rewrite (timedAsyncOperation_completes _ (OpRead Frame.HEADER_SIZE)) by reflexivity.
  simpl. rewrite Hh. apply asyncRead_header_handler_empty, HN.
Qed.

(** [asyncRead] through both phases: the header read, then the body read of
    as many bytes as the first four bytes of the buffer say. *)
Lemma asyncRead_two_phases timeout handler c stale ts tr b hdr body dt1 dt2 n1 n2 :
  let N := N.to_nat (fromBigEndian4 (take 4 (stale ++ hdr))) in
  N <> 0%nat -> length hdr = Frame.HEADER_SIZE -> length body = N ->
  run [Tick dt1; Complete 0 ec_success n1 hdr; Tick dt2; Complete 0 ec_success n2 body]
      (exec (asyncRead timeout handler) (mkState c true stale [] ts [] tr b))
  = exec (handler SUCCESS (take N (drop 4 (stale ++ hdr) ++ body)))
         (mkState (c + Z.of_N dt1 + Z.of_N dt2) true
            (drop N (drop 4 (stale ++ hdr) ++ body)) [] (ts ++ [None; None]) []
            (tr ++ [TimerArmed timeout; IoStarted (OpRead 4);
                    TimerArmed (timeout - Z.of_N dt1); IoStarted (OpRead N)]) b).
Proof.
  intros N HN Hh Hb. rewrite run_two.
  change (exec (asyncRead timeout handler) (mkState c true stale [] ts [] tr b))
    with (exec (timedAsyncOperation (async_read Frame.HEADER_SIZE) timeout
                  (asyncRead_header_handler timeout handler c))
               (mkState c true stale [] ts [] tr b)).
  rewrite (timedAsyncOperation_completes _ (OpRead Frame.HEADER_SIZE)) by reflexivity.
  simpl negb. cbv iota. unfold count_after, buffer_after, open_after.
  rewrite Hh, asyncRead_header_handler_body by exact HN. fold N.
  rewrite (timedAsyncOperation_completes _ (OpRead N)) by reflexivity.
  simpl negb. cbv iota. unfold count_after, buffer_after, open_after.
  rewrite Hb, asyncRead_body_handler_complete.
  replace (c + Z.of_N dt1 - c) with (Z.of_N dt1) by lia.
  rewrite <- !app_assoc. reflexivity.
Qed.

(** [asyncWrite] when its write completes. *)
Lemma asyncWrite_completes writeData timeout handler c buffer ts tr b dt ec n received :
  run [Tick dt; Complete 0 ec n received]
    (exec (asyncWrite writeData timeout handler) (mkState c true buffer [] ts [] tr b))
  = exec (handler (if (n <? 4 + length writeData)%nat then FAILED_OPERATION
                   else if ec_failed ec then FAILED_OPERATION else SUCCESS))
         (mkState (c + Z.of_N dt) true buffer [] (ts ++ [None]) []
            (tr ++ [TimerArmed timeout;
                    IoStarted (OpWrite (Frame.getBuffers (Frame.make writeData)))]) b).
Proof.
  unfold asyncWrite. cbv zeta.
  rewrite (timedAsyncOperation_completes _ (OpWrite (Frame.getBuffers (Frame.make writeData))))
    by reflexivity.
  unfold asyncWrite_handler, count_after, buffer_after, open_after.
  change (Frame.getSize (Frame.make writeData)) with (4 + length writeData)%nat.
  simpl negb. cbv iota.
  destruct (n <? 4 + length writeData)%nat; reflexivity.
Qed.

Lemma asyncSend_encoded (Message : Type) (Encoder : Message -> option (list byte))
    message data timeout handler :
  Encoder message = Some data ->
  asyncSend Message Encoder message timeout handler
  = asyncWrite data timeout (fun errorCode => handler errorCode).
Proof. intros HE. unfold asyncSend, encode. rewrite HE. reflexivity. Qed.

Lemma asyncSend_not_encoded (Message : Type) (Encoder : Message -> option (list byte))
    message timeout handler :
  Encoder message = None ->
  asyncSend Message Encoder message timeout handler = CallLater (handler ENCODING) Ret.
Proof. intros HE. unfold asyncSend, encode. rewrite HE. reflexivity. Qed.

Lemma asyncReceive_handler_decoded (Message : Type)
    (Decoder : list byte -> option (option Message)) handler errorCode data message :
  Decoder data = Some message ->
  asyncReceive_handler Message Decoder handler errorCode data
  = handler errorCode message.
Proof. intros H. unfold asyncReceive_handler, decode. rewrite H. reflexivity. Qed.

(** [asyncReceive] of a frame without payload and of a frame with one; the
    handler gets the pointer that the decoder returns. *)
Lemma asyncReceive_empty_frame (Message : Type)
    (Decoder : list byte -> option (option Message))
    handler message hdr timeout c ts tr b dt1 n1 :
  length hdr = Frame.HEADER_SIZE ->
  N.to_nat (fromBigEndian4 hdr) = 0%nat ->
  Decoder [] = Some message ->
  run [Tick dt1; Complete 0 ec_success n1 hdr]
    (exec (asyncReceive Message Decoder timeout handler) (mkState c true [] [] ts [] tr b))
  = exec (handler SUCCESS message)
      (mkState (c + Z.of_N dt1) true [] [] (ts ++ [None]) []
         (tr ++ [TimerArmed timeout; IoStarted (OpRead 4)]) b).
Proof.
  intros Hh HN HD. unfold Frame.HEADER_SIZE in Hh.
  assert (Htk : take 4 ([] ++ hdr) = hdr) by (apply take_ge; simpl; lia).
  assert (Hdr : drop 4 ([] ++ hdr) = []) by (apply drop_ge; simpl; lia).
  unfold asyncReceive.
  rewrite asyncRead_header_only by (rewrite ?Htk; assumption).
  rewrite (asyncReceive_handler_decoded _ _ _ _ _ _ HD), Hdr.
  reflexivity.
Qed.

Lemma asyncReceive_frame (Message : Type)
    (Decoder : list byte -> option (option Message))
    handler message hdr body timeout c ts tr b dt1 dt2 n1 n2 :
  length hdr = Frame.HEADER_SIZE ->
  N.to_nat (fromBigEndian4 hdr) = length body ->
  body <> [] ->
  Decoder body = Some message ->
  run [Tick dt1; Complete 0 ec_success n1 hdr; Tick dt2; Complete 0 ec_success n2 body]
    (exec (asyncReceive Message Decoder timeout handler) (mkState c true [] [] ts [] tr b))
  = exec (handler SUCCESS message)
      (mkState (c + Z.of_N dt1 + Z.of_N dt2) true [] [] (ts ++ [None; None]) []
         (tr ++ [TimerArmed timeout; IoStarted (OpRead 4);
                 TimerArmed (timeout - Z.of_N dt1); IoStarted (OpRead (length body))]) b).
Proof.
  intros Hh HN Hb HD. unfold Frame.HEADER_SIZE in Hh.
  assert (Htk : take 4 ([] ++ hdr) = hdr) by (apply take_ge; simpl; lia).
  assert (Hdr : drop 4 ([] ++ hdr) = []) by (apply drop_ge; simpl; lia).
  unfold asyncReceive.
  rewrite asyncRead_two_phases; rewrite ?Htk; try assumption; try (symmetry; assumption).
  - rewrite Hdr, HN. rewrite app_nil_l, take_ge, drop_ge by lia.
    rewrite (asyncReceive_handler_decoded _ _ _ _ _ _ HD). reflexivity.
  - rewrite HN. destruct body; [contradiction|discriminate].
Qed.

(** The stages of [asyncCallOperation] on a client that is not busy. *)
Section CallChain.

Variables Request Response : Type.
Variable Encoder : Request -> option (list byte).
Variable Decoder : list byte -> option (option Response).
Variable h : ErrorCode -> option Response -> Prog.
Variable request : Request.
Variables (host : list byte) (port : nat).

Lemma asyncCallOperation_connects timeout now open buffer dt n received :
  run [Tick dt; Complete 0 ec_success n received]
    (exec (asyncCallOperation Request Response Encoder Decoder h request host port timeout)
          (idle now open buffer))
  = exec (asyncCall_connected Request Response Encoder Decoder
            (mkAsyncState Response BusyLock_held h timeout now (Closer.make 0 true))
            request SUCCESS)
         (mkState (now + Z.of_N dt) true [] [] [None] []
            [TimerArmed timeout; IoStarted (OpConnect host port)] true).
Proof.
  rewrite asyncCallOperation_not_busy by reflexivity.
  transitivity
    (run [Tick dt; Complete 0 ec_success n received]
       (exec (timedAsyncOperation (fun h' => AsyncIo (OpConnect host port) h' Ret) timeout
                (fun error _ _ =>
                   asyncCall_connected Request Response Encoder Decoder
                     (mkAsyncState Response BusyLock_held h timeout now
                        (Closer.make 0 true))
                     request error))
             (mkState now open [] [] [] [] [] true))).
  - destruct open; reflexivity.
  - rewrite (timedAsyncOperation_completes _ (OpConnect host port)) by reflexivity.
    reflexivity.
Qed.

Lemma asyncCall_connected_sends timeout start data c ts tr b dt ec n received :
  Encoder request = Some data ->
  run [Tick dt; Complete 0 ec n received]
    (exec (asyncCall_connected Request Response Encoder Decoder
            (mkAsyncState Response BusyLock_held h timeout start (Closer.make 0 true))
            request SUCCESS)
         (mkState c true [] [] ts [] tr b))
  = exec (asyncCall_sent Response Decoder
            (mkAsyncState Response BusyLock_held h (timeout - (c - start)) c
               (Closer.make 0 true))
            (if (n <? 4 + length data)%nat then FAILED_OPERATION
             else if ec_failed ec then FAILED_OPERATION else SUCCESS))
         (mkState (c + Z.of_N dt) true [] [] (ts ++ [None]) []
            (tr ++ [TimerArmed (timeout - (c - start));
                    IoStarted (OpWrite (Frame.getBuffers (Frame.make data)))]) b).
Proof.
  intros HE.
  transitivity
    (run [Tick dt; Complete 0 ec n received]
       (exec (asyncSend Request Encoder request (timeout - (c - start))
                (asyncCall_sent Response Decoder
                   (mkAsyncState Response BusyLock_held h (timeout - (c - start)) c
                      (Closer.make 0 true))))
             (mkState c true [] [] ts [] tr b))).
  - reflexivity.
  - rewrite (asyncSend_encoded _ _ _ _ _ _ HE), asyncWrite_completes. reflexivity.
Qed.

Lemma asyncCall_sent_receives timeout start response hdr body c ts tr b dt1 dt2 n1 n2 :
  length hdr = Frame.HEADER_SIZE ->
  N.to_nat (fromBigEndian4 hdr) = length body ->
  body <> [] ->
  Decoder body = Some response ->
  run [Tick dt1; Complete 0 ec_success n1 hdr; Tick dt2; Complete 0 ec_success n2 body]
    (exec (asyncCall_sent Response Decoder
            (mkAsyncState Response BusyLock_held h timeout start (Closer.make 0 true))
            SUCCESS)
         (mkState c true [] [] ts [] tr b))
  = exec (seqP (h SUCCESS response) (Close (Unlock Ret)))
      (mkState (c + Z.of_N dt1 + Z.of_N dt2) true [] [] (ts ++ [None; None]) []
         (tr ++ [TimerArmed (timeout - (c - start)); IoStarted (OpRead 4);
                 TimerArmed (timeout - (c - start) - Z.of_N dt1);
                 IoStarted (OpRead (length body))]) b).
Proof.
  intros Hh HN Hb HD.
  transitivity
    (run [Tick dt1; Complete 0 ec_success n1 hdr; Tick dt2; Complete 0 ec_success n2 body]
       (exec (asyncReceive Response Decoder (timeout - (c - start))
                (fun error response =>
                   seqP (h error response)
                     (release Response
                        (mkAsyncState Response BusyLock_held h (timeout - (c - start)) c
                           (Closer.make 0 true)))))
             (mkState c true [] [] ts [] tr b))).
  - reflexivity.
  - rewrite (asyncReceive_frame _ _ _ response hdr body) by assumption. reflexivity.
Qed.

End CallChain.


(** ** Closeable.h and asionet/Stream.h: whole operations *)

(** C1: [timedAsyncOperation] leaves the operation outstanding with a
    completion handler that, whenever the operation completes, stops the
    timer and passes to the handler: [SUCCESS] when the operation reported no
    error and the transport is still open; [ABORTED] when the transport is no
    longer open, whatever the operation reported; [FAILED_OPERATION] when the
    operation reported an error and the transport is still open. *)
Theorem timedAsyncOperation_classifies op timeout handler s :
  let timer := length (timers s) in
  exists completion,
    pending (exec (timedAsyncOperation (fun h => AsyncIo op h Ret) timeout handler) s)
    = pending s ++ [(op, completion)] /\
    forall opError args s2,
      let s' := Timer_stop timer s2 in
      (ec_failed opError = false -> is_open s2 = true ->
       exec (completion opError args) s2 = exec (handler SUCCESS opError args) s') /\
      (is_open s2 = false ->
       exec (completion opError args) s2 = exec (handler ABORTED opError args) s') /\
      (ec_failed opError = true -> is_open s2 = true ->
       exec (completion opError args) s2 = exec (handler FAILED_OPERATION opError args) s').
Proof.
  intros timer. exists (timedAsyncOperation_completion timer handler). split.
  - apply (timedAsyncOperation_registers op timeout handler s).
  - intros opError args s2 s'. rewrite timedAsyncOperation_completion_exec. fold s'.
    split; [|split].
    + intros -> ->. reflexivity.
    + intros ->. reflexivity.
    + intros -> ->. reflexivity.
Qed.

(** A timed read on an idle client: its completion reports [SUCCESS] when the
    read went well, [ABORTED] when the transport has been closed and
    [FAILED_OPERATION] when the read failed. *)
Lemma timedAsyncOperation_classifies_witness :
  exists completion,
    pending (exec (timedAsyncOperation (fun h => AsyncIo (OpRead 4) h Ret) 100
                     (fun e _ _ => record_code e))
                  (idle 0 true []))
    = [(OpRead 4, completion)] /\
    trace (exec (completion ec_success 4%nat) (idle 7 true [])) = [Called SUCCESS []] /\
    trace (exec (completion ec_success 4%nat) (idle 7 false [])) = [Called ABORTED []] /\
    trace (exec (completion ec_eof 0%nat) (idle 7 true [])) = [Called FAILED_OPERATION []].
Proof.
  destruct (timedAsyncOperation_classifies (OpRead 4) 100 (fun e _ _ => record_code e)
              (idle 0 true [])) as [completion [Hp Hc]].
  exists completion. split; [exact Hp|]. split; [|split].
  - rewrite (proj1 (Hc ec_success 4%nat (idle 7 true [])) eq_refl eq_refl). reflexivity.
  - rewrite (proj1 (proj2 (Hc ec_success 4%nat (idle 7 false []))) eq_refl). reflexivity.
  - rewrite (proj2 (proj2 (Hc ec_eof 0%nat (idle 7 true []))) eq_refl eq_refl). reflexivity.
Defined.

(** C5: [asyncRead] whose header read completes without error with exactly
    4 bytes that announce the length 0: the handler is invoked in that
    completion, with success and the empty payload; the one read that was
    started is the header read, and no operation is outstanding and no timer
    armed when the handler runs. *)
Theorem asyncRead_empty_payload timeout handler c stale ts tr b hdr dt n :
  length hdr = Frame.HEADER_SIZE ->
  N.to_nat (fromBigEndian4 (take 4 (stale ++ hdr))) = 0%nat ->
  run [Tick dt; Complete 0 ec_success n hdr]
    (exec (asyncRead timeout handler) (mkState c true stale [] ts [] tr b))
  = exec (handler SUCCESS [])
      (mkState (c + Z.of_N dt) true (drop 4 (stale ++ hdr)) [] (ts ++ [None]) []
         (tr ++ [TimerArmed timeout; IoStarted (OpRead 4)]) b) /\
  let s := run [Tick dt; Complete 0 ec_success n hdr]
             (exec (asyncRead timeout record_data) (mkState c true stale [] ts [] tr b)) in
  trace s = tr ++ [TimerArmed timeout; IoStarted (OpRead 4); Called SUCCESS []] /\
  started (trace s) = started tr ++ [IoStarted (OpRead 4)] /\
  pending s = [] /\ executor s = [].
Proof.
  intros Hh HN. split; [apply asyncRead_header_only; assumption|].
  cbv zeta. rewrite asyncRead_header_only by assumption. simpl.
  rewrite <- app_assoc. repeat split.
  unfold started. rewrite list.filter_app. reflexivity.
Qed.

Lemma asyncRead_empty_payload_witness :
  let s := run [Tick 3; Complete 0 ec_success 4 [x00; x00; x00; x00]]
             (exec (asyncRead 100 record_data) (idle 0 true [])) in
  trace s = [TimerArmed 100; IoStarted (OpRead 4); Called SUCCESS []] /\
  started (trace s) = [IoStarted (OpRead 4)] /\
  pending s = [] /\ executor s = [].
Proof.
  apply (asyncRead_empty_payload 100 record_data 0 [] [] [] false [x00; x00; x00; x00] 3 4).
  - reflexivity.
  - reflexivity.
Defined.

Lemma asyncRead_header_handler_wrong_count timeout handler startTime ec n s :
  n <> Frame.HEADER_SIZE ->
  exec (asyncRead_header_handler timeout handler startTime SUCCESS ec n) s
  = exec (handler INVALID_FRAME []) s.
Proof.
  intros Hn. unfold asyncRead_header_handler. simpl.
  destruct (Nat.eqb_spec n Frame.HEADER_SIZE); [contradiction|reflexivity].
Qed.

Lemma asyncRead_body_handler_wrong_count handler N ec n s :
  n <> N ->
  exec (asyncRead_body_handler handler N SUCCESS ec n) s = exec (handler INVALID_FRAME []) s.
Proof.
  intros Hn. unfold asyncRead_body_handler. simpl.
  destruct (Nat.eqb_spec n N); [contradiction|reflexivity].
Qed.

(** C7: [asyncRead] on an open transport, a phase of which completes without
    error but with the wrong byte count: when the header read did not
    transfer 4 bytes, and when the body read did not transfer the [N] bytes
    that the header announced, the handler is invoked with [INVALID_FRAME] and
    empty data; what was received stays in the buffer, and nothing is
    outstanding when the handler runs. *)
Theorem asyncRead_wrong_count_is_InvalidFrame timeout handler c stale ts tr b :
  (forall hdr dt n,
     length hdr <> Frame.HEADER_SIZE ->
     run [Tick dt; Complete 0 ec_success n hdr]
       (exec (asyncRead timeout handler) (mkState c true stale [] ts [] tr b))
     = exec (handler INVALID_FRAME [])
         (mkState (c + Z.of_N dt) true (stale ++ hdr) [] (ts ++ [None]) []
            (tr ++ [TimerArmed timeout; IoStarted (OpRead 4)]) b)) /\
  (forall hdr body dt1 dt2 n1 n2,
     length hdr = Frame.HEADER_SIZE ->
     let N := N.to_nat (fromBigEndian4 (take 4 (stale ++ hdr))) in
     N <> 0%nat -> length body <> N ->
     run [Tick dt1; Complete 0 ec_success n1 hdr; Tick dt2; Complete 0 ec_success n2 body]
       (exec (asyncRead timeout handler) (mkState c true stale [] ts [] tr b))
     = exec (handler INVALID_FRAME [])
         (mkState (c + Z.of_N dt1 + Z.of_N dt2) true (drop 4 (stale ++ hdr) ++ body) []
            (ts ++ [None; None]) []
            (tr ++ [TimerArmed timeout; IoStarted (OpRead 4);
                    TimerArmed (timeout - Z.of_N dt1); IoStarted (OpRead N)]) b)).
Proof.
  split.
  - intros hdr dt n Hh.
    change (exec (asyncRead timeout handler) (mkState c true stale [] ts [] tr b))
      with (exec (timedAsyncOperation (async_read Frame.HEADER_SIZE) timeout
                    (asyncRead_header_handler timeout handler c))
                 (mkState c true stale [] ts [] tr b)).
    rewrite (timedAsyncOperation_completes _ (OpRead Frame.HEADER_SIZE)) by reflexivity.
    simpl negb. cbv iota. unfold count_after, buffer_after, open_after.
    apply asyncRead_header_handler_wrong_count, Hh.
  - intros hdr body dt1 dt2 n1 n2 Hh N HN Hb. rewrite run_two.
    change (exec (asyncRead timeout handler) (mkState c true stale [] ts [] tr b))
      with (exec (timedAsyncOperation (async_read Frame.HEADER_SIZE) timeout
                    (asyncRead_header_handler timeout handler c))
                 (mkState c true stale [] ts [] tr b)).
    rewrite (timedAsyncOperation_completes _ (OpRead Frame.HEADER_SIZE)) by reflexivity.
    simpl negb. cbv iota. unfold count_after, buffer_after, open_after.
    rewrite Hh, asyncRead_header_handler_body by exact HN. fold N.
    rewrite (timedAsyncOperation_completes _ (OpRead N)) by reflexivity.
    simpl negb. cbv iota. unfold count_after, buffer_after, open_after.
    rewrite asyncRead_body_handler_wrong_count by exact Hb.
    replace (c + Z.of_N dt1 - c) with (Z.of_N dt1) by lia.
    rewrite <- !app_assoc. reflexivity.
Qed.

(** A header read that ends after two bytes, and a body read that ends after
    one of the two bytes announced. *)
Lemma asyncRead_wrong_count_is_InvalidFrame_witness :
  trace (run [Tick 1; Complete 0 ec_success 2 [x00; x00]]
           (exec (asyncRead 100 record_data) (idle 0 true [])))
  = [TimerArmed 100; IoStarted (OpRead 4); Called INVALID_FRAME []] /\
  trace (run [Tick 1; Complete 0 ec_success 4 header_of_two;
              Tick 1; Complete 0 ec_success 1 [x6f]]
           (exec (asyncRead 100 record_data) (idle 0 true [])))
  = [TimerArmed 100; IoStarted (OpRead 4); TimerArmed (100 - 1); IoStarted (OpRead 2);
     Called INVALID_FRAME []].
Proof.
  destruct (asyncRead_wrong_count_is_InvalidFrame 100 record_data 0 [] [] [] false)
    as [H1 H2].
  split.
  - unfold idle, client. rewrite (H1 [x00; x00] 1%N 2%nat) by discriminate. reflexivity.
  - unfold idle, client.
    rewrite (H2 header_of_two [x6f] 1%N 1%N 4%nat 1%nat eq_refl) by discriminate.
    reflexivity.
Defined.

(** ** The operations keep to their discipline *)

Section DisciplineFacts.

Variable P : Policy.

Lemma okLog_Closed : (okLog P) Closed.
Proof. exact I. Qed.

Lemma Forall_snoc_ok tr ev : Forall (okLog P) tr -> (okLog P) ev -> Forall (okLog P) (tr ++ [ev]).
Proof. intros. apply Forall_app. split; [assumption|]. constructor; [assumption|constructor]. Qed.

Lemma lookup_snoc_None {A} (l : list (option A)) t x :
  (l ++ [None]) !! t = Some (Some x) -> l !! t = Some (Some x).
Proof.
  intros Hl. destruct (decide (t < length l)%nat).
  - rewrite lookup_app_l in Hl by assumption. exact Hl.
  - rewrite lookup_app_r in Hl by lia. destruct (t - _)%nat; simpl in Hl; discriminate.
Qed.

Lemma lookup_insert_cases {A} (l : list A) i j x y :
  <[i := x]> l !! j = Some y -> (i = j /\ y = x) \/ (i <> j /\ l !! j = Some y).
Proof.
  intros Hl. destruct (decide (i = j)) as [->|Hne].
  - left. split; [reflexivity|]. destruct (decide (j < length l)%nat).
    + rewrite list_lookup_insert_eq in Hl by assumption. congruence.
    + rewrite list_insert_ge in Hl by lia. apply lookup_lt_Some in Hl. lia.
  - right. rewrite list_lookup_insert_ne in Hl by assumption. auto.
Qed.

Lemma exec_Safe c o ts p :
  Safe P c o ts p -> forall s,
  clock s = c -> executor s = [] -> pending s = [] ->
  Forall (okLog P) (trace s) -> timers_kept P s -> armed_within ts s ->
  (o = true -> is_open s = false) ->
  Kept P (exec p s).
Proof.
  induction 1 as
    [ c o Hm | c o ts ev k Hev _ IH | c o ts k _ IH | c o ts k _ IH | c o ts k _ IH
    | c o ts k _ IH | c o ts k _ IH | c o ts task Ht | c o ts k _ IH
    | c o ts t d h k Hd Hq _ IH | c o ts ts' t k Hsub _ IH
    | c o ts op h Hh | c o ts n k _ IH | c o ts k _ IH ];
    intros s Hc He Hp Htr Htm Har Ho; simpl.
  - split; [assumption|]. split; [assumption|]. left. repeat split; auto.
  - apply IH; simpl; auto using Forall_snoc_ok.
  - rewrite Hc. apply IH; auto.
  - apply IH; auto.
  - apply IH; simpl; auto using Forall_snoc_ok, okLog_Closed.
  - apply IH; simpl; auto.
  - apply IH; simpl; auto.
  - split; [assumption|]. split; [assumption|]. right. left.
    exists task, ts. simpl. rewrite He. repeat split; auto.
  - apply IH; simpl; auto.
    + intros t tm Hl. simpl in Hl. apply lookup_snoc_None in Hl. eauto.
    + intros t tm Hl. simpl in Hl. apply lookup_snoc_None in Hl. eauto.
  - apply IH; simpl; auto using Forall_snoc_ok, okLog_Closed.
    + intros t' tm Hl'. simpl in Hl'.
      apply lookup_insert_cases in Hl' as [[-> [= ->]]|[Hne Hl']]; [|eauto].
      simpl. rewrite Hc. auto.
    + intros t' tm Hl'. simpl in Hl'.
      apply lookup_insert_cases in Hl' as [[-> _]|[Hne Hl']].
      * apply list_elem_of_here.
      * apply list_elem_of_further. eauto.
  - apply IH; simpl; auto.
    + intros t' tm Hl'. simpl in Hl'.
      apply lookup_insert_cases in Hl' as [[_ [=]]|[Hne Hl']]. eauto.
    + intros t' tm Hl'. simpl in Hl'.
      apply lookup_insert_cases in Hl' as [[_ [=]]|[Hne Hl']]. apply Hsub; eauto.
  - split; [simpl; apply Forall_snoc_ok; [assumption|exact I]|]. split; [assumption|].
    right. right. exists op, h, ts. simpl. rewrite Hp. repeat split; auto.
  - apply IH; simpl; auto.
  - apply IH; simpl; auto.
Qed.

Lemma exec_Quiet h : Quiet h -> forall s,
  executor (exec h s) = executor s /\ pending (exec h s) = pending s /\
  timers (exec h s) = timers s /\
  (Forall (okLog P) (trace s) -> Forall (okLog P) (trace (exec h s))) /\
  (is_open s = false -> is_open (exec h s) = false).
Proof.
  induction 1 as [|k _ IH]; intros s; simpl.
  - repeat split; auto.
  - destruct (IH (log Closed (set_open false s))) as (H1 & H2 & H3 & H4 & H5).
    simpl in *. repeat split; auto using Forall_snoc_ok, okLog_Closed.
Qed.

Lemma step_Kept ev s : Kept P s -> Kept P (step ev s).
Proof.
  intros HK. pose proof HK as (Htr & Htm & Hitems).
  destruct ev as [dt| |t|i ec n received|].
  - split; [assumption|]. split; [assumption|]. exact Hitems.
  - simpl.
    destruct Hitems as [(He & Hp & Har & Ho)|[(task & ts & He & Hp & Hs & Har)|
                        (op & h & ts & He & Hp & Hs & Har)]]; rewrite He.
    + exact HK.
    + apply (exec_Safe _ _ _ _ (Hs (clock s))); simpl; auto. discriminate.
    + exact HK.
  - simpl. destruct (timers s !! t) as [[tm|]|] eqn:Ht; try exact HK.
    destruct (timer_deadline tm <=? clock s); [|exact HK].
    destruct (Htm _ _ Ht) as [_ Hq].
    destruct (exec_Quiet _ Hq (Timer_stop t s)) as (H1 & H2 & H3 & H4 & H5).
    assert (Hsub : forall t' tm', timers (exec (timer_handler tm) (Timer_stop t s)) !! t'
                     = Some (Some tm') -> timers s !! t' = Some (Some tm')).
    { intros t' tm' Hl. rewrite H3 in Hl. simpl in Hl.
      apply lookup_insert_cases in Hl as [[_ [=]]|[_ Hl]]. exact Hl. }
    split; [apply H4; assumption|]. split; [intros t' tm' Hl; eauto|].
    rewrite H1, H2. simpl.
    destruct Hitems as [(He & Hp & Har & Ho)|[(task & ts & He & Hp & Hs & Har)|
                        (op & h & ts & He & Hp & Hs & Har)]].
    + exfalso. specialize (Har _ _ Ht). inversion Har.
    + right. left. exists task, ts. repeat split; auto. intros t' tm' Hl. eauto.
    + right. right. exists op, h, ts. repeat split; auto. intros t' tm' Hl. eauto.
  - simpl.
    destruct Hitems as [(He & Hp & Har & Ho)|[(task & ts & He & Hp & Hs & Har)|
                        (op & h & ts & He & Hp & Hs & Har)]]; rewrite Hp.
    + destruct i; exact HK.
    + destruct i; exact HK.
    + destruct i as [|i]; [|exact HK]. simpl.
      unfold complete. destruct op as [k|bs|host port].
      * apply (exec_Safe _ _ _ _ (Hs (clock s) ec (length received))); simpl; auto.
        discriminate.
      * apply (exec_Safe _ _ _ _ (Hs (clock s) ec n)); simpl; auto. discriminate.
      * destruct (ec_failed ec);
          apply (exec_Safe _ _ _ _ (Hs (clock s) ec n)); simpl; auto; discriminate.
  - split; [simpl; auto using Forall_snoc_ok, okLog_Closed|]. split; [assumption|]. simpl.
    destruct Hitems as [(He & Hp & Har & Ho)|[(task & ts & He & Hp & Hs & Har)|
                        (op & h & ts & He & Hp & Hs & Har)]].
    + left. repeat split; auto.
    + right. left. exists task, ts. auto.
    + right. right. exists op, h, ts. auto.
Qed.

Lemma run_Kept evs s : Kept P s -> Kept P (run evs s).
Proof.
  revert s. induction evs as [|ev evs IH]; intros s HK; simpl; [assumption|].
  apply IH, step_Kept, HK.
Qed.

Lemma Safe_Kept p now open buffer evs :
  Safe P now false [] p -> Kept P (run evs (exec p (idle now open buffer))).
Proof.
  intros HS. apply run_Kept. apply (exec_Safe _ _ _ _ HS); simpl; auto.
  - intros t tm Hl. destruct t; discriminate.
  - intros t tm Hl. destruct t; discriminate.
  - discriminate.
Qed.

Lemma Kept_one_outstanding s :
  Kept P s -> (length (executor s) + length (pending s) <= 1)%nat.
Proof.
  intros (_ & _ & [(He & Hp & _)|[(task & ts & He & Hp & _)|(op & h & ts & He & Hp & _)]]);
    rewrite He, Hp; simpl; lia.
Qed.

Lemma Kept_quiescent s :
  Kept P s -> quiescent s ->
  (forall t, timers s !! t = Some None \/ timers s !! t = None) /\
  (pol_close P = true -> is_open s = false).
Proof.
  intros (_ & _ & [(He & Hp & Har & Ho)|[(task & ts & He & Hp & _)|(op & h & ts & He & Hp & _)]])
         [Qe Qp]; try congruence.
  split; [|assumption]. intros t. destruct (timers s !! t) as [[tm|]|] eqn:Ht; auto.
  exfalso. specialize (Har _ _ Ht). inversion Har.
Qed.

Lemma Safe_seqP_Logs p q c o ts : Logs P p -> Safe P c o ts q -> Safe P c o ts (seqP p q).
Proof.
  intros Hp Hq. induction Hp as [|ev k Hev _ IH]; simpl; [assumption|].
  apply Safe_Log; assumption.
Qed.

Lemma Safe_Logs p c o : pol_close P = false -> Logs P p -> Safe P c o [] p.
Proof.
  intros Hm Hp. induction Hp as [|ev k Hev _ IH].
  - apply Safe_Ret. congruence.
  - apply Safe_Log; assumption.
Qed.

Lemma Safe_timedAsyncOperation asyncOperation op timeout handler c o :
  (forall h, asyncOperation h = AsyncIo op h Ret) ->
  pol_deadline P (c + timeout) ->
  (forall c' e oe m, classified e -> Safe P c' false [] (handler e oe m)) ->
  Safe P c o [] (timedAsyncOperation asyncOperation timeout handler).
Proof.
  intros Hop Hd Hh. unfold timedAsyncOperation, serialized.
  apply Safe_NewTimer. intros timer. apply Safe_StartTimeout; [assumption|repeat constructor|].
  rewrite Hop. apply Safe_AsyncIo. intros c' ec n. unfold timedAsyncOperation_completion, IsOpen_call.
  apply (Safe_StopTimer P _ _ _ []).
  { intros t' Ht' Hne. apply list_elem_of_singleton in Ht'. contradiction. }
  apply Safe_IsOpen. intros b. apply Hh. unfold classified.
  destruct b, (ec_failed ec); simpl; auto.
Qed.

Lemma Safe_asyncWrite writeData timeout handler c o :
  pol_deadline P (c + timeout) ->
  (forall c' e, classified e -> Safe P c' false [] (handler e)) ->
  Safe P c o [] (asyncWrite writeData timeout handler).
Proof.
  intros Hd Hh. unfold asyncWrite.
  apply (Safe_timedAsyncOperation _ (OpWrite (Frame.getBuffers (Frame.make writeData))));
    [reflexivity|assumption|].
  intros c' e oe m He. unfold asyncWrite_handler.
  destruct (m <? _)%nat; apply Hh; unfold classified; auto.
Qed.

Lemma Safe_asyncRead_body_handler handler numDataBytes c e oe m :
  classified e ->
  (forall c' e d, read_outcome e d -> Safe P c' false [] (handler e d)) ->
  Safe P c false [] (asyncRead_body_handler handler numDataBytes e oe m).
Proof.
  intros He Hh. unfold asyncRead_body_handler.
  destruct e; simpl; try (apply Hh; unfold read_outcome; auto);
    try (destruct He as [|[|]]; discriminate).
  destruct (negb _); [apply Hh; unfold read_outcome; auto|].
  apply Safe_Consume. intros d. apply Hh. left. reflexivity.
Qed.

Lemma Safe_asyncRead_header_handler timeout handler startTime c e oe m :
  pol_deadline P (startTime + timeout) -> classified e ->
  (forall c' e d, read_outcome e d -> Safe P c' false [] (handler e d)) ->
  Safe P c false [] (asyncRead_header_handler timeout handler startTime e oe m).
Proof.
  intros Hd He Hh. unfold asyncRead_header_handler.
  destruct e; simpl; try (apply Hh; unfold read_outcome; auto);
    try (destruct He as [|[|]]; discriminate).
  destruct (negb _); [apply Hh; unfold read_outcome; auto|].
  unfold numDataBytesFromBuffer. apply Safe_Consume. intros hdr.
  destruct (_ =? 0)%nat; [apply Hh; left; reflexivity|].
  apply Safe_Now.
  apply (Safe_timedAsyncOperation _ (OpRead (N.to_nat (fromBigEndian4 hdr))));
    [reflexivity| |].
  - replace (c + (timeout - (c - startTime))) with (startTime + timeout) by lia. assumption.
  - intros c' e' oe' m' He'. apply Safe_asyncRead_body_handler; assumption.
Qed.

Lemma Safe_asyncRead timeout handler c o :
  pol_deadline P (c + timeout) ->
  (forall c' e d, read_outcome e d -> Safe P c' false [] (handler e d)) ->
  Safe P c o [] (asyncRead timeout handler).
Proof.
  intros Hd Hh. unfold asyncRead. apply Safe_Now.
  apply (Safe_timedAsyncOperation _ (OpRead Frame.HEADER_SIZE)); [reflexivity|assumption|].
  intros c' e oe m He. apply Safe_asyncRead_header_handler; assumption.
Qed.

Lemma Safe_asyncSend {Message} Encoder (message : Message) timeout handler c o :
  pol_deadline P (c + timeout) ->
  (forall c' e, send_outcome e -> Safe P c' false [] (handler e)) ->
  Safe P c o [] (asyncSend Message Encoder message timeout handler).
Proof.
  intros Hd Hh. unfold asyncSend. destruct (encode _ _ _).
  - apply Safe_asyncWrite; [assumption|]. intros c' e He. apply Hh. left. assumption.
  - apply Safe_CallLater. intros c'. apply Hh. right. reflexivity.
Qed.

Lemma Safe_asyncReceive {Message} Decoder timeout
    (handler : ErrorCode -> option Message -> Prog) c o :
  pol_deadline P (c + timeout) ->
  (forall c' e m, receive_outcome Decoder e m -> Safe P c' false [] (handler e m)) ->
  Safe P c o [] (asyncReceive Message Decoder timeout handler).
Proof.
  intros Hd Hh. unfold asyncReceive. apply Safe_asyncRead; [assumption|].
  intros c' e d He. unfold asyncReceive_handler, decode.
  destruct (Decoder d) as [m|] eqn:HD.
  - apply Hh. right. split; [|exists d; exact HD].
    unfold classified. destruct He as [-> | [_ [-> | [-> | ->]]]]; auto.
  - apply Hh. left. auto.
Qed.

Lemma Safe_asyncCall_chain {Request Response} Encoder Decoder
    (h : CallHandler Response) (request : Request) host port timeout c o :
  pol_deadline P (c + timeout) ->
  (forall e r, call_outcome Decoder e r -> Logs P (h e r)) ->
  Safe P c o []
    (newSocket
       (asyncConnect host port timeout
          (asyncCall_connected Request Response Encoder Decoder
             (mkAsyncState Response BusyLock_held h timeout c (Closer.make 0 true))
             request))).
Proof.
  intros Hd Hh.
  assert (Hrel : forall c' o' e r (st : AsyncState Response),
            handler Response st = h -> closer Response st = Closer.make 0 true ->
            call_outcome Decoder e r ->
            Safe P c' o' [] (seqP (handler Response st e r) (release Response st))).
  { intros c' o' e r st -> Hcl He. apply Safe_seqP_Logs; [apply Hh, He|].
    unfold release. rewrite Hcl. apply Safe_Close, Safe_Unlock, Safe_Ret. reflexivity. }
  assert (HC : forall o', Safe P c o' []
            (asyncConnect host port timeout
               (asyncCall_connected Request Response Encoder Decoder
                  (mkAsyncState Response BusyLock_held h timeout c (Closer.make 0 true))
                  request))).
  { intros o'. unfold asyncConnect.
    apply (Safe_timedAsyncOperation _ (OpConnect host port)); [reflexivity|assumption|].
    intros c1 e _ _ He. unfold asyncCall_connected.
    destruct (is_error e) eqn:Ee.
    { apply Hrel; [reflexivity|reflexivity|]. left. split; [reflexivity|].
      destruct He as [-> | [-> | ->]]; [discriminate|auto|auto]. }
    unfold updateTimeout. apply Safe_Now. cbv beta zeta.
    apply Safe_asyncSend.
    { simpl. replace (c1 + (timeout - (c1 - c))) with (c + timeout) by lia. assumption. }
    intros c2 e1 He1. unfold asyncCall_sent.
    destruct (is_error e1) eqn:Ee1.
    { apply Hrel; [reflexivity|reflexivity|]. left. split; [reflexivity|].
      destruct He1 as [[-> | [-> | ->]] | ->]; [discriminate|auto|auto|auto]. }
    unfold updateTimeout. apply Safe_Now. cbv beta zeta.
    apply Safe_asyncReceive.
    { simpl. replace (c2 + (timeout - (c1 - c) - (c2 - c1))) with (c + timeout) by lia.
      assumption. }
    intros c3 e2 r He2. apply Hrel; [reflexivity|reflexivity|].
    destruct He2 as [[-> ->]|[He2 Hr]]; [left; auto|right; auto]. }
  unfold newSocket.
  apply Safe_IsOpen. intros open. destruct (negb open); [apply Safe_NewSocket|]; apply HC.
Qed.

(** A call on a client that is not busy keeps to the policy. *)
Lemma asyncCallOperation_Kept {Request Response} Encoder Decoder
    (h : CallHandler Response) (request : Request) host port timeout now open buffer evs :
  pol_deadline P (now + timeout) ->
  (forall e r, call_outcome Decoder e r -> Logs P (h e r)) ->
  Kept P (run evs (exec (asyncCallOperation Request Response Encoder Decoder h request
                           host port timeout)
                     (idle now open buffer))).
Proof.
  intros Hd Hh. rewrite asyncCallOperation_not_busy by reflexivity.
  apply run_Kept.
  apply (exec_Safe _ _ _ _
           (Safe_asyncCall_chain Encoder Decoder h request host port timeout now false
              Hd Hh)); simpl; auto.
  - intros t tm Hl. destruct t; discriminate.
  - intros t tm Hl. destruct t; discriminate.
  - discriminate.
Qed.

End DisciplineFacts.

Lemma Kept_called P s e d : Kept P s -> Called e d ∈ trace s -> pol_call P e d.
Proof.
  intros (Htr & _) Hin. rewrite list.Forall_forall in Htr. exact (Htr _ Hin).
Qed.

Lemma Kept_disarmed P s t tm : Kept P s -> quiescent s -> timers s !! t <> Some (Some tm).
Proof.
  intros HK Hq Ht. destruct (Kept_quiescent P s HK Hq) as [Hall _].
  destruct (Hall t) as [E|E]; congruence.
Qed.

(** ** asionet/Stream.h: what the handler is told *)

(** X1: [asyncWrite] writes the four byte big-endian length and then the
    payload in one operation.  When the write completes while the transport
    is open, the handler is called once: with [SUCCESS] when the operation
    reported no error and at least header plus payload bytes, with
    [FAILED_OPERATION] otherwise, also for a short write that reported no
    error.  The transport stays open, the timer is stopped and nothing is
    left outstanding. *)
Theorem asyncWrite_outcome writeData timeout now buffer dt ec n received :
  let s := run [Tick dt; Complete 0 ec n received]
             (exec (asyncWrite writeData timeout record_code) (idle now true buffer)) in
  trace s
  = [TimerArmed timeout;
     IoStarted (OpWrite (toBigEndian4 (N.of_nat (length writeData) mod 4294967296)
                         ++ writeData));
     Called (if (n <? 4 + length writeData)%nat then FAILED_OPERATION
             else if ec_failed ec then FAILED_OPERATION else SUCCESS) []] /\
  is_open s = true /\ timers s = [None] /\ quiescent s.
Proof.
  cbv zeta. unfold idle, client. rewrite asyncWrite_completes.
  destruct (n <? 4 + length writeData)%nat; [|destruct (ec_failed ec)];
    repeat split; reflexivity.
Qed.

(** X2: once the transport is closed, by [stop] or by the deadline timer, the
    read that is outstanding reports [ABORTED] with no data, whatever its
    completion says, also when it says that all bytes arrived; this holds in
    the header phase and in the body phase, for either way of closing. *)
Theorem asyncRead_close_wins timeout now buffer ec n received :
  calls (trace (run [Stop; Complete 0 ec n received]
                  (exec (asyncRead timeout record_data) (idle now true buffer))))
  = [Called ABORTED []] /\
  (forall dt : N, timeout <= Z.of_N dt ->
   calls (trace (run [Tick dt; FireTimer 0; Complete 0 ec n received]
                   (exec (asyncRead timeout record_data) (idle now true buffer))))
   = [Called ABORTED []]) /\
  (forall hdr n1, length hdr = Frame.HEADER_SIZE ->
   N.to_nat (fromBigEndian4 (take 4 (buffer ++ hdr))) <> 0%nat ->
   calls (trace (run [Complete 0 ec_success n1 hdr; Stop; Complete 0 ec n received]
                   (exec (asyncRead timeout record_data) (idle now true buffer))))
   = [Called ABORTED []]) /\
  (forall hdr n1 (dt1 dt2 : N), length hdr = Frame.HEADER_SIZE ->
   N.to_nat (fromBigEndian4 (take 4 (buffer ++ hdr))) <> 0%nat ->
   timeout <= Z.of_N dt1 + Z.of_N dt2 ->
   calls (trace (run [Tick dt1; Complete 0 ec_success n1 hdr;
                      Tick dt2; FireTimer 1; Complete 0 ec n received]
                   (exec (asyncRead timeout record_data) (idle now true buffer))))
   = [Called ABORTED []]).
Proof.
  split; [reflexivity|]. split; [|split].
  - intros dt Hdt. simpl.
    destruct (Z.leb_spec (now + timeout) (now + Z.of_N dt)); [reflexivity|lia].
  - intros hdr n1 Hh HN. simpl. rewrite Hh. simpl.
    destruct (Nat.eqb_spec (N.to_nat (fromBigEndian4 (take 4 (buffer ++ hdr)))) 0);
      [contradiction|reflexivity].
  - intros hdr n1 dt1 dt2 Hh HN Hdt. simpl. rewrite Hh. simpl.
    destruct (Nat.eqb_spec (N.to_nat (fromBigEndian4 (take 4 (buffer ++ hdr)))) 0);
      [contradiction|]. simpl.
    destruct (Z.leb_spec (now + Z.of_N dt1 + (timeout - (now + Z.of_N dt1 - now)))
                (now + Z.of_N dt1 + Z.of_N dt2)); [reflexivity|lia].
Qed.

(** The deadline passes in the header phase, and it passes in the body phase
    while both bytes of the body arrive. *)
Lemma asyncRead_close_wins_witness :
  calls (trace (run [Tick 100; FireTimer 0; Complete 0 ec_success 4 header_of_two]
                  (exec (asyncRead 100 record_data) (idle 0 true []))))
  = [Called ABORTED []] /\
  calls (trace (run [Tick 40; Complete 0 ec_success 4 header_of_two;
                     Tick 60; FireTimer 1; Complete 0 ec_success 2 ok]
                  (exec (asyncRead 100 record_data) (idle 0 true []))))
  = [Called ABORTED []].
Proof.
  destruct (asyncRead_close_wins 100 0 [] ec_success 4 header_of_two) as (_ & H2 & _).
  destruct (asyncRead_close_wins 100 0 [] ec_success 2 ok) as (_ & _ & _ & H4).
  split.
  - apply (H2 100%N). vm_compute. discriminate.
  - apply (H4 header_of_two 4%nat 40%N 60%N).
    + reflexivity.
    + vm_compute. discriminate.
    + vm_compute. discriminate.
Defined.

(** X3: [asyncRead] on an empty buffer, fed a header and then as many bytes
    as the header announces: the handler is called once, with [SUCCESS] and
    exactly these bytes; the buffer is empty again, the transport is open and
    nothing is left outstanding. *)
Theorem asyncRead_delivers_body timeout now hdr body dt1 dt2 n1 n2 :
  length hdr = Frame.HEADER_SIZE ->
  N.to_nat (fromBigEndian4 hdr) = length body -> body <> [] ->
  let s := run [Tick dt1; Complete 0 ec_success n1 hdr; Tick dt2; Complete 0 ec_success n2 body]
               (exec (asyncRead timeout record_data) (idle now true [])) in
  calls (trace s) = [Called SUCCESS body] /\ streambuf s = [] /\
  quiescent s /\ is_open s = true.
Proof.
  intros Hh HN Hb. cbv zeta. unfold idle, client. unfold Frame.HEADER_SIZE in Hh.
  assert (Ht : take 4 ([] ++ hdr) = hdr) by (apply take_ge; simpl; lia).
  assert (Hd : drop 4 ([] ++ hdr) = []) by (apply drop_ge; simpl; lia).
  rewrite asyncRead_two_phases; rewrite ?Ht; try assumption; try (symmetry; assumption).
  - rewrite Hd, HN, app_nil_l, take_ge, drop_ge by lia. repeat split; reflexivity.
  - rewrite HN. destruct body; [contradiction|discriminate].
Qed.

Lemma asyncRead_delivers_body_witness :
  let s := run [Tick 1; Complete 0 ec_success 4 header_of_two; Tick 1; Complete 0 ec_success 2 ok]
               (exec (asyncRead 100 record_data) (idle 0 true [])) in
  calls (trace s) = [Called SUCCESS ok] /\ streambuf s = [] /\
  quiescent s /\ is_open s = true.
Proof.
  apply (asyncRead_delivers_body 100 0 header_of_two ok 1 1 4 2).
  - reflexivity.
  - reflexivity.
  - discriminate.
Defined.

(** X4: [asyncRead] does not look at what the buffer already holds.  With
    four stale bytes in it, the stale bytes are taken for the header: the
    handler gets [SUCCESS] with the bytes that follow them, which start with
    the header that was sent, and four bytes stay behind for the next read. *)
Theorem asyncRead_stale_buffer timeout now stale hdr body dt1 dt2 n1 n2 :
  length stale = 4%nat -> length hdr = Frame.HEADER_SIZE ->
  N.to_nat (fromBigEndian4 stale) = length body -> body <> [] ->
  let s := run [Tick dt1; Complete 0 ec_success n1 hdr; Tick dt2; Complete 0 ec_success n2 body]
               (exec (asyncRead timeout record_data) (idle now true stale)) in
  calls (trace s) = [Called SUCCESS (take (length body) (hdr ++ body))] /\
  length (streambuf s) = 4%nat.
Proof.
  intros Hs Hh HN Hb. cbv zeta. unfold idle, client. unfold Frame.HEADER_SIZE in Hh.
  assert (Ht : take 4 (stale ++ hdr) = stale).
  { rewrite take_app_le by lia. apply take_ge. lia. }
  assert (Hd : drop 4 (stale ++ hdr) = hdr).
  { rewrite drop_app_ge by lia. rewrite Hs. reflexivity. }
  rewrite asyncRead_two_phases; rewrite ?Ht; try assumption; try (symmetry; assumption).
  - rewrite Hd, HN. split; [reflexivity|]. simpl.
    rewrite length_drop, length_app. lia.
  - rewrite HN. destruct body; [contradiction|discriminate].
Qed.

Lemma asyncRead_stale_buffer_witness :
  let s := run [Tick 1; Complete 0 ec_success 4 header_of_two; Tick 1; Complete 0 ec_success 2 ok]
               (exec (asyncRead 100 record_data) (idle 0 true header_of_two)) in
  calls (trace s) = [Called SUCCESS [x00; x00]] /\ length (streambuf s) = 4%nat.
Proof.
  apply (asyncRead_stale_buffer 100 0 header_of_two header_of_two ok 1 1 4 2).
  - reflexivity.
  - reflexivity.
  - reflexivity.
  - discriminate.
Defined.

(** ** Message.h: a message goes round *)

(** X5: what [asyncSend] puts on the wire for a message, [asyncReceive] turns
    back into that message: when the encoder returns [data] (shorter than
    [2^32] bytes) and the decoder maps [data] back to the message, the write
    that [asyncSend] starts carries bytes which, read as header and body by an
    [asyncReceive], make its handler get [SUCCESS] and the message, once. *)
Theorem asyncSend_asyncReceive_round_trip
    (Message : Type) (Encoder : Message -> option (list byte))
    (Decoder : list byte -> option (option Message)) repr message data timeout timeout' now now'
    dt1 dt2 n1 n2 :
  Encoder message = Some data -> Decoder data = Some (Some message) ->
  (N.of_nat (length data) < 4294967296)%N ->
  exists wire,
    trace (exec (asyncSend Message Encoder message timeout record_code) (idle now true []))
    = [TimerArmed timeout; IoStarted (OpWrite wire)] /\
    calls (trace (run [Tick dt1; Complete 0 ec_success n1 (take 4 wire);
                       Tick dt2; Complete 0 ec_success n2 (drop 4 wire)]
                    (exec (asyncReceive Message Decoder timeout' (record_message repr))
                          (idle now' true []))))
    = [Called SUCCESS (repr message)].
Proof.
  intros HE HD Hlen. exists (Frame.getBuffers (Frame.make data)). split.
  - rewrite (asyncSend_encoded _ _ _ _ _ _ HE). reflexivity.
  - destruct (Frame_getBuffers_split (Frame.make data)) as [Ht Hd].
    rewrite Ht, Hd. unfold idle, client.
    pose proof (Frame_header_length (Frame.make data)) as Hh.
    pose proof (Frame_header_decodes (Frame.make data) Hlen) as HN.
    simpl Frame.data in *.
    destruct data as [|b data].
    + rewrite run_two, (asyncReceive_empty_frame _ _ _ (Some message)) by assumption.
      reflexivity.
    + rewrite (asyncReceive_frame _ _ _ (Some message)) by (assumption || discriminate).
      reflexivity.
Qed.

Lemma asyncSend_asyncReceive_round_trip_witness :
  exists wire,
    trace (exec (asyncSend (list byte) Encoder_string ping 100 record_code) (idle 0 true []))
    = [TimerArmed 100; IoStarted (OpWrite wire)] /\
    calls (trace (run [Tick 1; Complete 0 ec_success 4 (take 4 wire);
                       Tick 1; Complete 0 ec_success 4 (drop 4 wire)]
                    (exec (asyncReceive (list byte) Decoder_string 50 (record_message id))
                          (idle 7 true []))))
    = [Called SUCCESS ping].
Proof.
  apply (asyncSend_asyncReceive_round_trip (list byte) Encoder_string Decoder_string id
           ping ping 100 50 0 7 1 1 4 4).
  - reflexivity.
  - reflexivity.
  - vm_compute. reflexivity.
Defined.

(** X6: [asyncSend] reports [ENCODING] exactly when the encoder fails: under
    every schedule of the environment, a handler call carries [ENCODING] when
    the encoder failed, and [SUCCESS], [ABORTED] or [FAILED_OPERATION] when
    it returned the bytes to send. *)
Theorem asyncSend_outcomes (Message : Type) (Encoder : Message -> option (list byte))
    message timeout now open buffer evs e d :
  Called e d ∈ trace (run evs (exec (asyncSend Message Encoder message timeout record_code)
                                 (idle now open buffer))) ->
  match Encoder message with
  | Some _ => classified e
  | None => e = ENCODING
  end.
Proof.
  destruct (Encoder message) as [data|] eqn:HE.
  - rewrite (asyncSend_encoded _ _ _ _ _ _ HE).
    apply (Kept_called (mkPolicy (fun e _ => classified e) (fun _ => True) false)).
    apply Safe_Kept, Safe_asyncWrite; [exact I|].
    intros c' e' He. apply Safe_Logs; [reflexivity|].
    apply Logs_Log; [exact He|apply Logs_Ret].
  - rewrite (asyncSend_not_encoded _ _ _ _ _ HE).
    apply (Kept_called (mkPolicy (fun e _ => e = ENCODING) (fun _ => True) false)).
    apply Safe_Kept, Safe_CallLater. intros c'. apply Safe_Logs; [reflexivity|].
    apply Logs_Log; [reflexivity|apply Logs_Ret].
Qed.

Lemma asyncSend_outcomes_witness :
  Called FAILED_OPERATION []
    ∈ trace (run [Complete 0 ec_success 3 []]
               (exec (asyncSend (list byte) Encoder_string ping 100 record_code)
                     (idle 0 true []))) /\
  classified FAILED_OPERATION.
Proof.
  assert (H : Called FAILED_OPERATION []
                ∈ trace (run [Complete 0 ec_success 3 []]
                           (exec (asyncSend (list byte) Encoder_string ping 100 record_code)
                                 (idle 0 true []))))
    by (simpl; repeat constructor).
  split; [exact H|].
  exact (asyncSend_outcomes (list byte) Encoder_string ping 100 0 true []
           [Complete 0 ec_success 3 []] FAILED_OPERATION [] H).
Defined.

(** X7: under every schedule of the environment, [asyncRead] calls its
    handler with data only together with [SUCCESS]; any other call carries
    [ABORTED], [FAILED_OPERATION] or [INVALID_FRAME] and no data. *)
Theorem asyncRead_outcomes timeout now open buffer evs e d :
  Called e d ∈ trace (run evs (exec (asyncRead timeout record_data) (idle now open buffer))) ->
  read_outcome e d.
Proof.
  apply (Kept_called (mkPolicy read_outcome (fun _ => True) false)).
  apply Safe_Kept, Safe_asyncRead; [exact I|].
  intros c' e' d' He. apply Safe_Logs; [reflexivity|].
  apply Logs_Log; [exact He|apply Logs_Ret].
Qed.

Lemma asyncRead_outcomes_witness :
  Called FAILED_OPERATION []
    ∈ trace (run [Complete 0 ec_eof 0 []]
               (exec (asyncRead 100 record_data) (idle 0 true []))) /\
  read_outcome FAILED_OPERATION [].
Proof.
  assert (H : Called FAILED_OPERATION []
                ∈ trace (run [Complete 0 ec_eof 0 []]
                           (exec (asyncRead 100 record_data) (idle 0 true []))))
    by (simpl; repeat constructor).
  split; [exact H|].
  exact (asyncRead_outcomes 100 0 true [] [Complete 0 ec_eof 0 []] FAILED_OPERATION [] H).
Defined.

(** X8: under every schedule of the environment, [asyncReceive] reports
    [DECODING] only together with a null message; every other call of its
    handler carries [SUCCESS], [ABORTED], [FAILED_OPERATION] or
    [INVALID_FRAME] together with the pointer that the decoder returned for
    some data, which is null only when the decoder returned a null pointer
    without throwing. *)
Theorem asyncReceive_outcomes (Message : Type)
    (Decoder : list byte -> option (option Message))
    timeout now open buffer evs e d :
  Called e d ∈ trace (run evs (exec (asyncReceive Message Decoder timeout record_presence)
                                 (idle now open buffer))) ->
  exists m : option Message, d = presence m /\ receive_outcome Decoder e m.
Proof.
  apply (Kept_called
           (mkPolicy (fun e d => exists m : option Message,
                                   d = presence m /\ receive_outcome Decoder e m)
                     (fun _ => True) false)).
  apply Safe_Kept, Safe_asyncReceive; [exact I|].
  intros c' e' m He. apply Safe_Logs; [reflexivity|].
  apply Logs_Log; [|apply Logs_Ret]. exists m. auto.
Qed.

Lemma asyncReceive_outcomes_witness :
  Called DECODING []
    ∈ trace (run [Complete 0 ec_eof 0 []]
               (exec (asyncReceive (list byte) Decoder_nonempty 100 record_presence)
                     (idle 0 true []))) /\
  exists m : option (list byte),
    [] = presence m /\ receive_outcome Decoder_nonempty DECODING m.
Proof.
  assert (H : Called DECODING []
                ∈ trace (run [Complete 0 ec_eof 0 []]
                           (exec (asyncReceive (list byte) Decoder_nonempty 100 record_presence)
                                 (idle 0 true []))))
    by (simpl; repeat constructor).
  split; [exact H|].
  exact (asyncReceive_outcomes (list byte) Decoder_nonempty 100 0 true []
           [Complete 0 ec_eof 0 []] DECODING [] H).
Defined.

(** X9: [asyncRead] and [asyncWrite] have at most one handler posted or one
    operation outstanding at any time, under every schedule of the
    environment; and once nothing is posted or outstanding, no timer of
    theirs is armed. *)
Theorem stream_operations_one_at_a_time :
  (forall timeout now open buffer evs,
     let s := run evs (exec (asyncRead timeout record_data) (idle now open buffer)) in
     (length (executor s) + length (pending s) <= 1)%nat /\
     (quiescent s -> forall t tm, timers s !! t <> Some (Some tm))) /\
  (forall writeData timeout now open buffer evs,
     let s := run evs (exec (asyncWrite writeData timeout record_code)
                         (idle now open buffer)) in
     (length (executor s) + length (pending s) <= 1)%nat /\
     (quiescent s -> forall t tm, timers s !! t <> Some (Some tm))).
Proof.
  set (P := mkPolicy (fun _ _ => True) (fun _ => True) false).
  split; intros.
  - assert (HK : Kept P s).
    { apply Safe_Kept, Safe_asyncRead; [exact I|]. intros.
      apply Safe_Logs; [reflexivity|]. apply Logs_Log; [exact I|apply Logs_Ret]. }
    split; [apply (Kept_one_outstanding P), HK|].
    intros Hq t tm. apply (Kept_disarmed P); assumption.
  - assert (HK : Kept P s).
    { apply Safe_Kept, Safe_asyncWrite; [exact I|]. intros.
      apply Safe_Logs; [reflexivity|]. apply Logs_Log; [exact I|apply Logs_Ret]. }
    split; [apply (Kept_one_outstanding P), HK|].
    intros Hq t tm. apply (Kept_disarmed P); assumption.
Qed.

Lemma stream_operations_one_at_a_time_witness :
  let s := run [Tick 1; Complete 0 ec_eof 0 []]
             (exec (asyncRead 100 record_data) (idle 0 true [])) in
  quiescent s /\ timers s !! 0%nat <> Some (Some (mkTimer 100 (Close Ret))).
Proof.
  assert (Hq : quiescent (run [Tick 1; Complete 0 ec_eof 0 []]
                            (exec (asyncRead 100 record_data) (idle 0 true []))))
    by (split; reflexivity).
  split; [exact Hq|].
  exact (proj2 (proj1 stream_operations_one_at_a_time 100 0 true []
                  [Tick 1; Complete 0 ec_eof 0 []]) Hq 0%nat (mkTimer 100 (Close Ret))).
Defined.

(** ** ServiceClient.h: the call *)

(** X10: a call that goes well.  The connect succeeds, the request is
    written in full, and the header and the body of the response arrive: the
    operations started are the connect, one write of the framed request, the
    read of four bytes and the read of the body; each is armed with what is
    left of the one timeout; the handler is called once, with [SUCCESS] and
    the decoded response, and then the socket is closed; nothing is left
    outstanding. *)
Theorem asyncCallOperation_round_trip
    (Request Response : Type) (Encoder : Request -> option (list byte))
    (Decoder : list byte -> option (option Response)) repr request data response hdr body
    host port timeout now open buffer dt1 dt2 dt3 dt4 n1 n2 n3 n4 rc1 rc2 :
  Encoder request = Some data ->
  (4 + length data <= n2)%nat ->
  length hdr = Frame.HEADER_SIZE ->
  N.to_nat (fromBigEndian4 hdr) = length body ->
  body <> [] ->
  Decoder body = Some (Some response) ->
  let s := run [Tick dt1; Complete 0 ec_success n1 rc1;
                Tick dt2; Complete 0 ec_success n2 rc2;
                Tick dt3; Complete 0 ec_success n3 hdr;
                Tick dt4; Complete 0 ec_success n4 body]
             (exec (asyncCallOperation Request Response Encoder Decoder
                      (record_message repr) request host port timeout)
                   (idle now open buffer)) in
  trace s = [TimerArmed timeout; IoStarted (OpConnect host port);
             TimerArmed (timeout - Z.of_N dt1);
             IoStarted (OpWrite (Frame.getBuffers (Frame.make data)));
             TimerArmed (timeout - Z.of_N dt1 - Z.of_N dt2);
             IoStarted (OpRead 4);
             TimerArmed (timeout - Z.of_N dt1 - Z.of_N dt2 - Z.of_N dt3);
             IoStarted (OpRead (length body));
             Called SUCCESS (repr response); Closed] /\
  is_open s = false /\ streambuf s = [] /\ quiescent s.
Proof.
  intros HE Hn2 Hh HN Hb HD. cbv zeta.
  rewrite run_two, asyncCallOperation_connects.
  rewrite run_two, asyncCall_connected_sends with (data := data) by assumption.
  apply Nat.ltb_ge in Hn2. rewrite Hn2. simpl ec_failed. cbv iota.
  rewrite asyncCall_sent_receives with (response := Some response) by assumption.
  replace (now + Z.of_N dt1 - now) with (Z.of_N dt1) by lia.
  replace (now + Z.of_N dt1 + Z.of_N dt2 - (now + Z.of_N dt1)) with (Z.of_N dt2) by lia.
  repeat split; reflexivity.
Qed.

Lemma asyncCallOperation_round_trip_witness :
  let s := run [Tick 1; Complete 0 ec_success 0 [];
                Tick 2; Complete 0 ec_success 8 [];
                Tick 3; Complete 0 ec_success 4 header_of_two;
                Tick 4; Complete 0 ec_success 2 ok]
             (exec (asyncCallOperation (list byte) (list byte) Encoder_string Decoder_string
                      (record_message id) ping localhost 80 100)
                   (idle 0 false [])) in
  trace s = [TimerArmed 100; IoStarted (OpConnect localhost 80);
             TimerArmed (100 - 1);
             IoStarted (OpWrite (Frame.getBuffers (Frame.make ping)));
             TimerArmed (100 - 1 - 2);
             IoStarted (OpRead 4);
             TimerArmed (100 - 1 - 2 - 3);
             IoStarted (OpRead 2);
             Called SUCCESS ok; Closed] /\
  is_open s = false /\ streambuf s = [] /\ quiescent s.
Proof.
  apply (asyncCallOperation_round_trip (list byte) (list byte) Encoder_string Decoder_string
           id ping ping ok header_of_two ok localhost 80 100 0 false [] 1 2 3 4 0 8 4 2 [] []).
  - reflexivity.
  - simpl. lia.
  - reflexivity.
  - reflexivity.
  - discriminate.
  - reflexivity.
Defined.

(** X11: a call whose request cannot be encoded.  When the connect has
    completed, the handler has not been called: it is posted, as the one
    posted task, while the socket is open, and no write is started.  When the
    executor runs it, it is called with [ENCODING] and no response, and then
    the socket is closed; no write and no read was ever started. *)
Theorem asyncCallOperation_encode_failure
    (Request Response : Type) (Encoder : Request -> option (list byte))
    (Decoder : list byte -> option (option Response)) repr request host port timeout
    now open buffer dt n received :
  Encoder request = None ->
  let s1 := run [Tick dt; Complete 0 ec_success n received]
              (exec (asyncCallOperation Request Response Encoder Decoder
                       (record_message repr) request host port timeout)
                    (idle now open buffer)) in
  let s := step RunPosted s1 in
  (trace s1 = [TimerArmed timeout; IoStarted (OpConnect host port)] /\
   length (executor s1) = 1%nat /\ pending s1 = [] /\ is_open s1 = true) /\
  (trace s = [TimerArmed timeout; IoStarted (OpConnect host port);
              Called ENCODING []; Closed] /\
   is_open s = false /\ quiescent s).
Proof.
  intros HE. cbv zeta.
  rewrite asyncCallOperation_connects.
  unfold asyncCall_connected. simpl. rewrite (asyncSend_not_encoded _ _ _ _ _ HE).
  split; repeat split; reflexivity.
Qed.

Lemma asyncCallOperation_encode_failure_witness :
  let s1 := run [Tick 1; Complete 0 ec_success 0 []]
              (exec (asyncCallOperation (list byte) (list byte) (fun _ => None)
                       Decoder_string (record_message id) ping localhost 80 100)
                    (idle 0 false [])) in
  let s := step RunPosted s1 in
  (trace s1 = [TimerArmed 100; IoStarted (OpConnect localhost 80)] /\
   length (executor s1) = 1%nat /\ pending s1 = [] /\ is_open s1 = true) /\
  (trace s = [TimerArmed 100; IoStarted (OpConnect localhost 80);
              Called ENCODING []; Closed] /\
   is_open s = false /\ quiescent s).
Proof.
  apply (asyncCallOperation_encode_failure (list byte) (list byte) (fun _ => None)
           Decoder_string id ping localhost 80 100 0 false [] 1 0 []).
  reflexivity.
Defined.

(** X12: a call whose request is not written in full.  The handler is called
    once, with [FAILED_OPERATION] and no response, the socket is closed, and
    no read is started. *)
Theorem asyncCallOperation_send_failure
    (Request Response : Type) (Encoder : Request -> option (list byte))
    (Decoder : list byte -> option (option Response)) repr request data host port timeout
    now open buffer dt1 dt2 n1 n2 ec rc1 rc2 :
  Encoder request = Some data ->
  (n2 < 4 + length data)%nat ->
  let s := run [Tick dt1; Complete 0 ec_success n1 rc1; Tick dt2; Complete 0 ec n2 rc2]
             (exec (asyncCallOperation Request Response Encoder Decoder
                      (record_message repr) request host port timeout)
                   (idle now open buffer)) in
  trace s = [TimerArmed timeout; IoStarted (OpConnect host port);
             TimerArmed (timeout - Z.of_N dt1);
             IoStarted (OpWrite (Frame.getBuffers (Frame.make data)));
             Called FAILED_OPERATION []; Closed] /\
  is_open s = false /\ quiescent s.
Proof.
  intros HE Hn2. cbv zeta.
  rewrite run_two, asyncCallOperation_connects.
  rewrite asyncCall_connected_sends with (data := data) by assumption.
  apply Nat.ltb_lt in Hn2. rewrite Hn2.
  replace (now + Z.of_N dt1 - now) with (Z.of_N dt1) by lia.
  repeat split; reflexivity.
Qed.

Lemma asyncCallOperation_send_failure_witness :
  let s := run [Tick 1; Complete 0 ec_success 0 []; Tick 2; Complete 0 ec_success 7 []]
             (exec (asyncCallOperation (list byte) (list byte) Encoder_string Decoder_string
                      (record_message id) ping localhost 80 100)
                   (idle 0 false [])) in
  trace s = [TimerArmed 100; IoStarted (OpConnect localhost 80);
             TimerArmed (100 - 1);
             IoStarted (OpWrite (Frame.getBuffers (Frame.make ping)));
             Called FAILED_OPERATION []; Closed] /\
  is_open s = false /\ quiescent s.
Proof.
  apply (asyncCallOperation_send_failure (list byte) (list byte) Encoder_string
           Decoder_string id ping ping localhost 80 100 0 false [] 1 2 0 7 ec_success [] []).
  - reflexivity.
  - simpl. lia.
Defined.

(** X13: under every schedule of the environment, on a client that is busy
    or not, the handler of a call gets either a null response together with
    [ABORTED], [FAILED_OPERATION], [ENCODING] or [DECODING], or [SUCCESS],
    [ABORTED], [FAILED_OPERATION] or [INVALID_FRAME] together with the pointer
    that the response decoder returned for some data, which is null only
    when the decoder returned a null pointer without throwing.  [BUSY] is
    never passed to the handler: on a busy client the call throws and the
    handler is not called at all. *)
Theorem asyncCallOperation_outcomes (Request Response : Type)
    (Encoder : Request -> option (list byte))
    (Decoder : list byte -> option (option Response))
    request host port timeout busy now open buffer evs e d :
  Called e d ∈ trace (run evs (exec (asyncCallOperation Request Response Encoder Decoder
                                       record_presence request host port timeout)
                                 (client busy now open buffer))) ->
  exists r : option Response, d = presence r /\ call_outcome Decoder e r.
Proof.
  destruct busy.
  - rewrite asyncCallOperation_busy by reflexivity.
    apply (Kept_called
             (mkPolicy (fun e d => exists r : option Response,
                                     d = presence r /\ call_outcome Decoder e r)
                       (fun _ => True) false)).
    apply run_Kept. split; [repeat constructor|]. split.
    + intros t tm Hl. destruct t; discriminate.
    + left. repeat split; try discriminate.
  - apply (Kept_called
             (mkPolicy (fun e d => exists r : option Response,
                                     d = presence r /\ call_outcome Decoder e r)
                       (fun _ => True) true)).
    apply (asyncCallOperation_Kept _ Encoder Decoder); [exact I|].
    intros e' r He. apply Logs_Log; [|apply Logs_Ret]. exists r. auto.
Qed.

Lemma asyncCallOperation_outcomes_witness :
  Called FAILED_OPERATION []
    ∈ trace (run [Complete 0 ec_success 0 []; Complete 0 ec_eof 0 []]
               (exec (asyncCallOperation (list byte) (list byte) Encoder_string
                        Decoder_string record_presence ping localhost 80 100)
                     (client false 0 false []))) /\
  exists r : option (list byte),
    [] = presence r /\ call_outcome Decoder_string FAILED_OPERATION r.
Proof.
  assert (H : Called FAILED_OPERATION []
                ∈ trace (run [Complete 0 ec_success 0 []; Complete 0 ec_eof 0 []]
                           (exec (asyncCallOperation (list byte) (list byte) Encoder_string
                                    Decoder_string record_presence ping localhost 80 100)
                                 (client false 0 false []))))
    by (simpl; repeat constructor).
  split; [exact H|].
  exact (asyncCallOperation_outcomes (list byte) (list byte) Encoder_string Decoder_string
           ping localhost 80 100 false 0 false []
           [Complete 0 ec_success 0 []; Complete 0 ec_eof 0 []] FAILED_OPERATION [] H).
Defined.



(** X15: the timeout of a call is one budget for connect, send and receive:
    under every schedule of the environment, every timer that is armed
    during the call expires at the time the call was started plus its
    timeout. *)
Theorem asyncCallOperation_one_deadline (Request Response : Type)
    (Encoder : Request -> option (list byte)) (Decoder : list byte -> option (option Response))
    repr request host port timeout now open buffer evs t tm :
  timers (run evs (exec (asyncCallOperation Request Response Encoder Decoder
                           (record_message repr) request host port timeout)
                     (idle now open buffer))) !! t = Some (Some tm) ->
  timer_deadline tm = now + timeout.
Proof.
  intros Ht. set (P := mkPolicy (fun _ _ => True) (fun d => d = now + timeout) true).
  assert (HK : Kept P (run evs (exec (asyncCallOperation Request Response Encoder Decoder
                           (record_message repr) request host port timeout)
                     (idle now open buffer)))).
  { apply asyncCallOperation_Kept; [reflexivity|]. intros.
    apply Logs_Log; [exact I|apply Logs_Ret]. }
  destruct HK as (_ & Htm & _). destruct (Htm _ _ Ht) as [Hd Hq]. exact Hd.
Qed.

Lemma asyncCallOperation_one_deadline_witness :
  timers (run [Tick 30; Complete 0 ec_success 0 []]
            (exec (asyncCallOperation (list byte) (list byte) Encoder_string Decoder_string
                     (record_message id) ping localhost 80 100)
                  (idle 5 false []))) !! 1%nat
  = Some (Some (mkTimer 105 (Close Ret))) /\
  timer_deadline (mkTimer 105 (Close Ret)) = 5 + 100.
Proof.
  assert (H : timers (run [Tick 30; Complete 0 ec_success 0 []]
            (exec (asyncCallOperation (list byte) (list byte) Encoder_string Decoder_string
                     (record_message id) ping localhost 80 100)
                  (idle 5 false []))) !! 1%nat
              = Some (Some (mkTimer 105 (Close Ret)))) by reflexivity.
  split; [exact H|].
  exact (asyncCallOperation_one_deadline (list byte) (list byte) Encoder_string
           Decoder_string id ping localhost 80 100 5 false []
           [Tick 30; Complete 0 ec_success 0 []] 1%nat (mkTimer 105 (Close Ret)) H).
Defined.

(** ** Closeable.h: guards that are handed on *)

Lemma Closer_destroy_guards this g h :
  Closer.guards h !! this = Some (Some g) ->
  Closer.guards (Closer.destroy this h) = <[this := None]> (Closer.guards h).
Proof.
  intros Hg. unfold Closer.destroy. rewrite Hg. destruct (Closer.alive g); reflexivity.
Qed.

(** Every step of a chain of move constructions and destructions keeps the
    invariant. *)
Lemma Closer_apply_sole_owner op h :
  Closer_sole_owner h -> Closer_handed_on op h = true ->
  Closer_sole_owner (Closer.apply op h).
Proof.
  intros [Hc Hn] Hl. destruct op as [c|other|this other|this]; simpl in *.
  - discriminate.
  - unfold Closer.move_construct.
    destruct (Closer.guards h !! other) as [[o|]|] eqn:Ho; try (split; assumption).
    pose proof (Hc _ _ Ho) as Hco. destruct o as [co ao]. simpl in *. subst.
    split; simpl.
    + intros i g Hi.
      destruct (decide (i < length (<[other:=Some (Closer.make 0 false)]>
                                      (Closer.guards h)))%nat).
      * rewrite lookup_app_l in Hi by assumption.
        apply lookup_insert_Some_inv in Hi as [[= ->]|Hi]; [reflexivity|eauto].
      * rewrite lookup_app_r in Hi by lia.
        destruct (i - _)%nat; simpl in Hi; [inversion Hi; reflexivity|discriminate].
    + rewrite Closer_owners_app.
      pose proof (Closer_owners_insert 0 _ _ (Some (Closer.make 0 false)) _ Ho) as H.
      rewrite !Closer_owners_one in *. simpl in *. unfold Closer.closes in *. simpl. lia.
  - discriminate.
  - unfold Closer.destroy.
    destruct (Closer.guards h !! this) as [[g|]|] eqn:Hg; try (split; assumption).
    pose proof (Hc _ _ Hg) as Hcg. destruct g as [cg ag]. simpl in *. subst.
    assert (H1 := Closer_owners_insert 0 _ _ None _ Hg).
    rewrite Closer_owners_one, Closer_owners_none in H1.
    split.
    + intros i g Hi. simpl in Hi. destruct ag; simpl in Hi;
      apply lookup_insert_Some_inv in Hi as [[=]|Hi]; eauto.
    + destruct ag; simpl.
      * change (Closer.closes 0 _) with (Closer.closes 0 (Closer.close 0 h)).
        rewrite Closer_closes_close. simpl in *. lia.
      * change (Closer.closes 0 _) with (Closer.closes 0 h). simpl in *. lia.
Qed.

(** X16: a guard is constructed on a transport and handed on by move
    construction, always from a guard that is still alive, while guards are
    destroyed in any order.  At every point either exactly one guard is alive
    and [close] was not called, or no guard is alive and [close] was called
    exactly once: the transport is closed once, when the guard that holds it
    last is destroyed. *)
Theorem Closer_move_chain_closes_exactly_once ops :
  let h := Closer.construct 0 Closer.start in
  Closer_handed_on_chain ops h = true ->
  (Closer.owners 0 (Closer.guards (Closer.run ops h))
   + Closer.closes 0 (Closer.run ops h) = 1)%nat.
Proof.
  intros h Hops.
  assert (HI : Closer_sole_owner h).
  { split; [|reflexivity]. intros [|i] g Hi; simpl in Hi; [|discriminate].
    inversion Hi. reflexivity. }
  clearbody h. revert h HI Hops.
  induction ops as [|op ops IH]; intros h HI Hops; simpl in *.
  - destruct HI as [_ HI]. exact HI.
  - apply andb_prop in Hops as [H1 H2].
    apply IH; [apply Closer_apply_sole_owner; assumption|exact H2].
Qed.

Lemma Closer_move_chain_closes_exactly_once_witness :
  let h := Closer.construct 0 Closer.start in
  let ops := [Closer.MoveConstruct 0; Closer.Destroy 0; Closer.MoveConstruct 1;
              Closer.Destroy 2; Closer.Destroy 1] in
  (Closer.owners 0 (Closer.guards (Closer.run ops h))
   + Closer.closes 0 (Closer.run ops h) = 1)%nat.
Proof.
  apply (Closer_move_chain_closes_exactly_once
           [Closer.MoveConstruct 0; Closer.Destroy 0; Closer.MoveConstruct 1;
            Closer.Destroy 2; Closer.Destroy 1]).
  reflexivity.
Defined.

(** X17: move assignment between two guards.  The guard assigned to takes
    over [alive] of the source and gives up its own duty without closing
    anything; when both guards are destroyed afterwards, [close] is called at
    most once, on the object the guard assigned to was constructed on, and
    only when the source was alive. *)
Theorem Closer_move_assign_closes this other g o h :
  this <> other ->
  Closer.guards h !! this = Some (Some g) ->
  Closer.guards h !! other = Some (Some o) ->
  Closer.closed (Closer.move_assign this other h) = Closer.closed h /\
  Closer.closed (Closer.destroy other (Closer.destroy this (Closer.move_assign this other h)))
  = Closer.closed h ++ (if Closer.alive o then [Closer.closeable g] else []).
Proof.
  intros Hne Hg Ho.
  pose proof (lookup_lt_Some _ _ _ Hg) as Hlg.
  pose proof (lookup_lt_Some _ _ _ Ho) as Hlo.
  set (h1 := Closer.move_assign this other h).
  assert (Hcl : Closer.closed h1 = Closer.closed h).
  { unfold h1, Closer.move_assign. rewrite Hg, Ho. reflexivity. }
  assert (Hgs : Closer.guards h1
                = <[other := Some (Closer.make (Closer.closeable o) false)]>
                    (<[this := Some (Closer.make (Closer.closeable g) (Closer.alive o))]>
                       (Closer.guards h))).
  { unfold h1, Closer.move_assign. rewrite Hg, Ho.
    rewrite list_lookup_insert_ne by exact Hne. rewrite Ho. reflexivity. }
  assert (Ht : Closer.guards h1 !! this
               = Some (Some (Closer.make (Closer.closeable g) (Closer.alive o)))).
  { rewrite Hgs. rewrite list_lookup_insert_ne by congruence.
    apply list_lookup_insert_eq. exact Hlg. }
  assert (Hot : Closer.guards (Closer.destroy this h1) !! other
                = Some (Some (Closer.make (Closer.closeable o) false))).
  { rewrite (Closer_destroy_guards _ _ _ Ht), Hgs.
    rewrite list_lookup_insert_ne by exact Hne.
    apply list_lookup_insert_eq. rewrite length_insert. exact Hlo. }
  split; [exact Hcl|].
  rewrite (Closer_destroy_closed _ _ _ Hot). simpl.
  rewrite (Closer_destroy_closed _ _ _ Ht). simpl. rewrite Hcl.
  destruct (Closer.alive o); [reflexivity|]. rewrite app_nil_r. reflexivity.
Qed.

Lemma Closer_move_assign_closes_witness :
  let h := Closer.mkHeap [Some (Closer.make 0 true); Some (Closer.make 1 false)]
             [true; true] [] in
  Closer.closed (Closer.move_assign 0 1 h) = [] /\
  Closer.closed (Closer.destroy 1 (Closer.destroy 0 (Closer.move_assign 0 1 h))) = [].
Proof.
  apply (Closer_move_assign_closes 0 1 (Closer.make 0 true) (Closer.make 1 false)
           (Closer.mkHeap [Some (Closer.make 0 true); Some (Closer.make 1 false)]
              [true; true] [])).
  - discriminate.
  - reflexivity.
  - reflexivity.
Defined.
